(** * Ghidra Processor Module Generator: the driver and its combining engine

    The first part of this file embeds [main] of [main.cpp]: the command-line
    handling, the calls into the parser, the combiner and the output routines,
    and the [CLEANUP] label.  Control flow ([return], [goto CLEANUP]) is kept
    as a small monad over the machine state; every [cout] line and every call
    of an external routine is recorded in order, so that statements about what
    a run does and in which order can be made on the recorded trace.

    The routines declared in [parser.h] and [output.h] are not part of
    [main.cpp]; the driver is verified for arbitrary behaviours of them.

    The second part models the three passes of [combineInstructions] from the
    specification and proves the properties stated of them there. *)

From Stdlib Require Import List String Ascii ZArith Bool Arith Lia.
Import ListNotations.
Open Scope string_scope.
Open Scope list_scope.
Open Scope Z_scope.

(** ** Data of the driver *)

(** The selector passed to [combineInstructions]. *)
Inductive COMBINE_MODE : Type :=
  | COMBINE_DUPLICATES
  | COMBINE_IMMEDIATES
  | COMBINE_REGISTERS.

(** The members of [PARSED_DATA] that [main] reads or writes; [engine] stands
    for every other member of the structure (it is only handed on). *)
Record PARSED_DATA {Instruction Engine : Type} : Type := mkParsedData {
  inputFilename : string;
  processorName : string;
  processorFamily : string;
  endian : string;
  alignment : Z;
  bitness : Z;
  omitOpcodes : bool;
  omitExampleInstructions : bool;
  maxOpcodeBits : Z;
  allInstructions : list Instruction;
  engine : Engine
}.
Arguments PARSED_DATA : clear implicits.
Arguments mkParsedData {Instruction Engine}.

(** What [parse_command_line], [store] and [notify] found on the command line:
    for each option of [desc] whether it was given, and with which value.  A
    switch is [true] when it occurs. *)
Record Options : Type := mkOptions {
  opt_input_file : option string;
  opt_processor_name : option string;
  opt_processor_family : option string;
  opt_endian : option string;
  opt_alignment : option Z;
  opt_bitness : option Z;
  opt_print_registers_only : bool;
  opt_omit_opcodes : bool;
  opt_omit_example_instructions : bool;
  opt_skip_instruction_combining : bool;
  opt_additional_registers : option (list string);
  opt_help : bool
}.

(** The library either throws a [boost::program_options::error] or delivers
    the options. *)
Inductive CommandLine : Type :=
  | BoostError (what : string)
  | Parsed (o : Options).

(** Everything written to [cout] and every call that leaves [main]. *)
Inductive Event : Type :=
  | Say (line : string)
  | SayUsage
  | SayCommandLineError (what : string)
  | SayParsed (count : nat)
  | SayFoundRegisters (registers : string)
  | Call_initRegisters (additional : list string)
  | Call_parseInstructions
  | Call_getOutputRegisters
  | Call_combineInstructions (mode : COMBINE_MODE)
  | Call_computeAttachVariables
  | Call_computeTokenInstructions
  | Call_createProcessorModule
  | Call_clearParserData.

(** The first line of every run. *)
Definition banner : Event := Say "Ghidra Processor Module Generator (GPMG)".

(** The calls of the five engine stages, as they occur in a trace. *)
Definition is_stage (e : Event) : bool :=
  match e with
  | Call_combineInstructions _ => true
  | Call_computeAttachVariables => true
  | Call_computeTokenInstructions => true
  | _ => false
  end.

Definition is_combine (e : Event) : bool :=
  match e with
  | Call_combineInstructions _ => true
  | _ => false
  end.

Definition is_teardown (e : Event) : bool :=
  match e with
  | Call_clearParserData => true
  | _ => false
  end.

Definition stages (t : list Event) : list Event := filter is_stage t.
Definition combines (t : list Event) : list Event := filter is_combine t.
Definition teardowns (t : list Event) : nat := List.length (filter is_teardown t).

(** The calls that leave [main], as they occur in a trace. *)
Definition is_call (e : Event) : bool :=
  match e with
  | Call_initRegisters _ => true
  | Call_parseInstructions => true
  | Call_getOutputRegisters => true
  | Call_combineInstructions _ => true
  | Call_computeAttachVariables => true
  | Call_computeTokenInstructions => true
  | Call_createProcessorModule => true
  | Call_clearParserData => true
  | _ => false
  end.

Definition calls (t : list Event) : list Event := filter is_call t.

(** The five lines with which [main] reports a failure (lines 64, 70, 76, 88
    and 100). *)
Definition is_error_line (e : Event) : bool :=
  match e with
  | SayCommandLineError _ => true
  | Say line =>
      String.eqb line "Input file name is required!!"
      || String.eqb line "Processor endianness must be either big or little!!"
      || String.eqb line "[-] Failed to initialize default Ghidra registers!!"
      || String.eqb line "[-] Failed to parse instructions"
  | _ => false
  end.

Definition error_lines (t : list Event) : list Event := filter is_error_line t.

(** The options [o] with the two debugging switches set as given. *)
Definition with_switches (o : Options) (printRegisters skipCombining : bool)
  : Options :=
  mkOptions (opt_input_file o) (opt_processor_name o) (opt_processor_family o)
            (opt_endian o) (opt_alignment o) (opt_bitness o)
            printRegisters (opt_omit_opcodes o)
            (opt_omit_example_instructions o) skipCombining
            (opt_additional_registers o) (opt_help o).

(** The routines declared in [parser.h] and [output.h], as an interface.
    [World] is the state outside [main]: the register table of the parser and
    the files.  Each routine may change the data it is given by reference and
    the world.  [initRegisters] and [parseInstructions] return the [int] that
    [main] stores in [result]; whatever the other routines return is dropped
    by [main], which for [createProcessorModule] is kept visible as a status. *)
Class Routines (World Instruction Engine : Type) : Type := {
  initRegisters : list string -> World -> Z * World;
  parseInstructions :
    PARSED_DATA Instruction Engine -> World ->
    Z * PARSED_DATA Instruction Engine * World;
  getOutputRegisters :
    PARSED_DATA Instruction Engine -> World ->
    string * PARSED_DATA Instruction Engine * World;
  combineInstructions :
    PARSED_DATA Instruction Engine -> COMBINE_MODE -> World ->
    PARSED_DATA Instruction Engine * World;
  computeAttachVariables :
    PARSED_DATA Instruction Engine -> World ->
    PARSED_DATA Instruction Engine * World;
  computeTokenInstructions :
    PARSED_DATA Instruction Engine -> World ->
    PARSED_DATA Instruction Engine * World;
  createProcessorModule :
    PARSED_DATA Instruction Engine -> World ->
    Z * PARSED_DATA Instruction Engine * World;
  clearParserData :
    PARSED_DATA Instruction Engine -> World ->
    PARSED_DATA Instruction Engine * World
}.

Module Driver.
Section Main.

Context {World Instruction Engine : Type}.
Context {routines : Routines World Instruction Engine}.

Abbreviation PD := (PARSED_DATA Instruction Engine).

(** The locals of [main], the world and the trace so far. *)
Record Machine : Type := mkMachine {
  parsedData : PD;
  additionalRegisters : list string;
  skipInstructionCombining : bool;
  printRegistersOnly : bool;
  result : Z;
  world : World;
  trace : list Event
}.

(** A statement falls through, returns from [main], or jumps to [CLEANUP]. *)
Inductive Flow (A : Type) : Type :=
  | Next (a : A) (m : Machine)
  | Return (code : Z) (m : Machine)
  | GotoCleanup (m : Machine).
Arguments Next {A}.
Arguments Return {A}.
Arguments GotoCleanup {A}.

Definition Stmt (A : Type) : Type := Machine -> Flow A.

Definition pure {A} (a : A) : Stmt A := fun m => Next a m.

Definition bind {A B} (s : Stmt A) (k : A -> Stmt B) : Stmt B :=
  fun m =>
    match s m with
    | Next a m' => k a m'
    | Return c m' => Return c m'
    | GotoCleanup m' => GotoCleanup m'
    end.

Notation "x <- s ;; k" := (bind s (fun x => k))
  (at level 61, s at next level, right associativity).
Notation "s ;; k" := (bind s (fun _ => k))
  (at level 61, right associativity).

Definition return_ {A} (code : Z) : Stmt A := fun m => Return code m.
Definition goto_CLEANUP {A} : Stmt A := fun m => GotoCleanup m.
Definition skip : Stmt unit := pure tt.

Definition log (e : Event) : Stmt unit :=
  fun m => Next tt (mkMachine (parsedData m) (additionalRegisters m)
                      (skipInstructionCombining m) (printRegistersOnly m)
                      (result m) (world m) (trace m ++ [e])).

Definition cout (line : string) : Stmt unit := log (Say line).

Definition get {A} (f : Machine -> A) : Stmt A := fun m => Next (f m) m.

Definition set_result (r : Z) : Stmt unit :=
  fun m => Next tt (mkMachine (parsedData m) (additionalRegisters m)
                      (skipInstructionCombining m) (printRegistersOnly m)
                      r (world m) (trace m)).

(** [default_value]: the value given, else the default. *)
Definition default_value {A} (given : option A) (dflt : A) : A :=
  match given with
  | Some v => v
  | None => dflt
  end.

(** An option without default leaves its variable as it was. *)
Definition value {A} (given : option A) (current : A) : A :=
  match given with
  | Some v => v
  | None => current
  end.

(** [notify(args)] with the bindings of lines 40-50: every option writes the
    variable it was bound to. *)
Definition notify (o : Options) : Stmt unit :=
  fun m =>
    let pd := parsedData m in
    Next tt (mkMachine
      (mkParsedData
         (value (opt_input_file o) (inputFilename pd))
         (default_value (opt_processor_name o) "MyProc")
         (default_value (opt_processor_family o) "MyProcFamily")
         (default_value (opt_endian o) "big")
         (default_value (opt_alignment o) 1)
         (default_value (opt_bitness o) 32)
         (opt_omit_opcodes o)
         (opt_omit_example_instructions o)
         (maxOpcodeBits pd)
         (allInstructions pd)
         (engine pd))
      (value (opt_additional_registers o) (additionalRegisters m))
      (opt_skip_instruction_combining o)
      (opt_print_registers_only o)
      (result m) (world m) (trace m)).

(** [args.count(name)] for the two options [main] asks about. *)
Definition count_help (o : Options) : Z := if opt_help o then 1 else 0.
Definition count_input_file (o : Options) : Z :=
  match opt_input_file o with
  | Some _ => 1
  | None => 0
  end.

(** The three tests of lines 56, 62 and 68. *)
Definition help_requested (argc : Z) (o : Options) : bool :=
  negb (count_help o =? 0) || (argc =? 1).

Definition input_file_missing (o : Options) : bool :=
  count_input_file o =? 0.

Definition endian_invalid (e : string) : bool :=
  negb (String.eqb e "big") && negb (String.eqb e "little").

(** Lines 37-78: the [try] block and its handler. *)
Definition command_line_arg_parsing (argc : Z) (cl : CommandLine) : Stmt unit :=
  match cl with
  | BoostError what =>
      log (SayCommandLineError what) ;;
      return_ (-1)
  | Parsed o =>
      notify o ;;
      (if help_requested argc o
       then log SayUsage ;; return_ 0
       else skip) ;;
      (if input_file_missing o
       then cout "Input file name is required!!" ;; return_ (-1)
       else skip) ;;
      e <- get (fun m => endian (parsedData m)) ;;
      (if endian_invalid e
       then cout "Processor endianness must be either big or little!!" ;;
            return_ (-1)
       else skip)
  end.

(** The calls of the external routines, each recorded in the trace; the
    data passed by reference and the world are replaced by what the routine
    leaves. *)
Definition call {A} (e : Event) (f : PD -> World -> A * PD * World) : Stmt A :=
  fun m =>
    let out := f (parsedData m) (world m) in
    Next (fst (fst out))
      (mkMachine (snd (fst out)) (additionalRegisters m)
         (skipInstructionCombining m) (printRegistersOnly m)
         (result m) (snd out) (trace m ++ [e])).

Definition call_void (e : Event) (f : PD -> World -> PD * World) : Stmt unit :=
  call e (fun pd w => (tt, fst (f pd w), snd (f pd w))).

Definition call_initRegisters : Stmt Z :=
  fun m =>
    let out := initRegisters (additionalRegisters m) (world m) in
    Next (fst out)
      (mkMachine (parsedData m) (additionalRegisters m)
         (skipInstructionCombining m) (printRegistersOnly m)
         (result m) (snd out)
         (trace m ++ [Call_initRegisters (additionalRegisters m)])).

Definition call_parseInstructions : Stmt Z :=
  call Call_parseInstructions parseInstructions.

Definition call_getOutputRegisters : Stmt string :=
  call Call_getOutputRegisters getOutputRegisters.

Definition call_combineInstructions (mode : COMBINE_MODE) : Stmt unit :=
  call_void (Call_combineInstructions mode)
            (fun pd => combineInstructions pd mode).

Definition call_computeAttachVariables : Stmt unit :=
  call_void Call_computeAttachVariables computeAttachVariables.

Definition call_computeTokenInstructions : Stmt unit :=
  call_void Call_computeTokenInstructions computeTokenInstructions.

Definition call_createProcessorModule : Stmt Z :=
  call Call_createProcessorModule createProcessorModule.

Definition call_clearParserData : Stmt unit :=
  call_void Call_clearParserData clearParserData.

(** Lines 80-146: from the register initialisation to [result = 0]. *)
Definition pipeline : Stmt unit :=
  cout "[*] Initializing default Ghidra registers" ;;
  r <- call_initRegisters ;;
  set_result r ;;
  (if negb (r =? 0)
   then cout "[-] Failed to initialize default Ghidra registers!!" ;;
        goto_CLEANUP
   else skip) ;;
  cout "[*] Parsing instructions" ;;
  r <- call_parseInstructions ;;
  set_result r ;;
  (if negb (r =? 0)
   then cout "[-] Failed to parse instructions" ;; goto_CLEANUP
   else skip) ;;
  n <- get (fun m => List.length (allInstructions (parsedData m))) ;;
  log (SayParsed n) ;;
  pro <- get printRegistersOnly ;;
  (if pro
   then regs <- call_getOutputRegisters ;;
        log (SayFoundRegisters regs) ;;
        cout "If there are any issues edit registers.h before proceeding." ;;
        set_result 0 ;;
        goto_CLEANUP
   else skip) ;;
  sic <- get skipInstructionCombining ;;
  (if Bool.eqb sic false
   then cout "[*] Combining duplicate instructions" ;;
        call_combineInstructions COMBINE_DUPLICATES ;;
        cout "[*] Combining immediate instructions" ;;
        call_combineInstructions COMBINE_IMMEDIATES ;;
        cout "[*] Combining register instructions" ;;
        call_combineInstructions COMBINE_REGISTERS
   else skip) ;;
  cout "[*] Computing attach registers" ;;
  call_computeAttachVariables ;;
  cout "[*] Computing token instructions" ;;
  call_computeTokenInstructions ;;
  cout "[*] Generating Ghidra processor specification" ;;
  _ <- call_createProcessorModule ;;
  cout "[*] Created Processor Module Directory" ;;
  set_result 0.

(** Lines 148-150: the [CLEANUP] label. *)
Definition CLEANUP : Stmt unit :=
  call_clearParserData ;;
  r <- get result ;;
  return_ r.

(** Lines 25-31: the initialisations before the [try] block. *)
Definition prologue : Stmt unit :=
  fun m =>
    let pd := parsedData m in
    (cout "Ghidra Processor Module Generator (GPMG)")
      (mkMachine
         (mkParsedData (inputFilename pd) (processorName pd)
            (processorFamily pd) (endian pd) (alignment pd) (bitness pd)
            (omitOpcodes pd) (omitExampleInstructions pd) 0
            (allInstructions pd) (engine pd))
         (additionalRegisters m) false false 0 (world m) (trace m)).

(** A run of the process: the value [main] returns, the trace and the
    final state. *)
Record Run : Type := mkRun {
  exit_code : Z;
  events : list Event;
  final : Machine
}.

(** The state at entry: [parsedData] as its constructor leaves it, the
    vector of additional registers empty; the two flags and [result] are
    written by the prologue before they are read. *)
Definition entry (pd0 : PD) (w0 : World) : Machine :=
  mkMachine pd0 [] false false 0 w0 [].

Definition main_body (argc : Z) (cl : CommandLine) : Stmt unit :=
  prologue ;;
  command_line_arg_parsing argc cl ;;
  pipeline.

(** [main]: a jump to [CLEANUP] and falling off the end of the pipeline both
    continue at the label; a [return] leaves at once. *)
Definition main (argc : Z) (cl : CommandLine) (pd0 : PD) (w0 : World) : Run :=
  match main_body argc cl (entry pd0 w0) with
  | Return c m => mkRun c (trace m) m
  | Next _ m | GotoCleanup m =>
      match CLEANUP m with
      | Return c m' => mkRun c (trace m') m'
      | Next _ m' | GotoCleanup m' => mkRun (result m') (trace m') m'
      end
  end.

(** *** Names for what a run goes through

    The state a statement leaves behind, whichever way it ends. *)
Definition state_of {A} (f : Flow A) : Machine :=
  match f with
  | Next _ m => m
  | Return _ m => m
  | GotoCleanup m => m
  end.

(** The locals once the command line has been stored and notified. *)
Definition configured (o : Options) (pd0 : PD) (w0 : World) : Machine :=
  state_of ((prologue ;; notify o) (entry pd0 w0)).

(** The command line passes the three tests of the [try] block. *)
Definition reaches_pipeline (argc : Z) (cl : CommandLine) : bool :=
  match cl with
  | BoostError _ => false
  | Parsed o =>
      negb (help_requested argc o) && negb (input_file_missing o)
      && negb (endian_invalid (default_value (opt_endian o) "big"))
  end.

(** What [initRegisters] and [parseInstructions] answer when the pipeline
    starts in state [m]. *)
Definition init_outcome (m : Machine) : Z * World :=
  initRegisters (additionalRegisters m) (world m).

Definition parse_outcome (m : Machine) : Z * PD * World :=
  parseInstructions (parsedData m) (snd (init_outcome m)).

Definition init_status (m : Machine) : Z := fst (init_outcome m).

Definition parse_status (m : Machine) : Z := fst (fst (parse_outcome m)).

(** The data and the world after parsing. *)
Definition parsed_store (m : Machine) : PD * World :=
  (snd (fst (parse_outcome m)), snd (parse_outcome m)).

(** The events up to the report of the number of parsed instructions. *)
Definition parsing_events (m : Machine) : list Event :=
  [banner; Say "[*] Initializing default Ghidra registers";
   Call_initRegisters (additionalRegisters m);
   Say "[*] Parsing instructions";
   Call_parseInstructions;
   SayParsed (List.length (allInstructions (fst (parsed_store m))))].

(** The run gets as far as line 103: command line accepted, registers
    initialised, instructions parsed. *)
Definition parsed_ok (argc : Z) (o : Options) (pd0 : PD) (w0 : World) : Prop :=
  reaches_pipeline argc (Parsed o) = true
  /\ init_status (configured o pd0 w0) = 0
  /\ parse_status (configured o pd0 w0) = 0.

(** The engine as a composition of its stages: the three combine passes
    (unless skipped), the attach and the token computation, each on the
    whole result of the one before. *)
Definition stage (f : PD -> World -> PD * World) (s : PD * World) : PD * World :=
  f (fst s) (snd s).

Definition engine_stages (skipCombining : bool) (s : PD * World) : PD * World :=
  let combined :=
    if skipCombining then s
    else stage (fun pd => combineInstructions pd COMBINE_REGISTERS)
           (stage (fun pd => combineInstructions pd COMBINE_IMMEDIATES)
              (stage (fun pd => combineInstructions pd COMBINE_DUPLICATES) s)) in
  stage computeTokenInstructions (stage computeAttachVariables combined).

(** [createProcessorModule] and [clearParserData] as steps on the store;
    the status of the former is dropped, as [main] does. *)
Definition output_stage (s : PD * World) : PD * World :=
  (snd (fst (createProcessorModule (fst s) (snd s))),
   snd (createProcessorModule (fst s) (snd s))).

Definition teardown_stage (s : PD * World) : PD * World :=
  clearParserData (fst s) (snd s).

(** Modelled from the spec: the bodies of [initRegisters] and
    [parseInstructions] ([parser.cpp]) are missing; the command surface of
    the spec gives [-1] as the exit code of a failed register
    initialisation or a failed parse, and [main] hands their status on
    unchanged, so a status of theirs is [0] or [-1]. *)
Definition zero_or_minus_one (status : Z) : Prop :=
  status = 0 \/ status = -1.

End Main.

Arguments Next {World Instruction Engine A}.
Arguments Return {World Instruction Engine A}.
Arguments GotoCleanup {World Instruction Engine A}.

End Driver.

(** The events of the engine and of the output, with or without the three
    combine passes. *)
Definition engine_events (skipCombining : bool) : list Event :=
  (if skipCombining then []
   else [Say "[*] Combining duplicate instructions";
         Call_combineInstructions COMBINE_DUPLICATES;
         Say "[*] Combining immediate instructions";
         Call_combineInstructions COMBINE_IMMEDIATES;
         Say "[*] Combining register instructions";
         Call_combineInstructions COMBINE_REGISTERS])
  ++ [Say "[*] Computing attach registers";
      Call_computeAttachVariables;
      Say "[*] Computing token instructions";
      Call_computeTokenInstructions;
      Say "[*] Generating Ghidra processor specification";
      Call_createProcessorModule;
      Say "[*] Created Processor Module Directory"].

Definition five_stages : list Event :=
  [Call_combineInstructions COMBINE_DUPLICATES;
   Call_combineInstructions COMBINE_IMMEDIATES;
   Call_combineInstructions COMBINE_REGISTERS;
   Call_computeAttachVariables;
   Call_computeTokenInstructions].

(** [getOutputRegisters] as a step on the store; the string it returns is
    what [main] prints. *)
Definition registers_stage {World Instruction Engine : Type}
    {routines : Routines World Instruction Engine}
    (s : PARSED_DATA Instruction Engine * World)
  : PARSED_DATA Instruction Engine * World :=
  (snd (fst (getOutputRegisters (fst s) (snd s))),
   snd (getOutputRegisters (fst s) (snd s))).

(** ** Two implementations of the interface, to run the driver on

    A parser and an output side that succeed and leave everything as it is,
    and one whose [createProcessorModule] reports a failure. *)
Definition quiet_routines (output_status : Z) : Routines unit unit unit := {|
  initRegisters := fun _ w => (0, w);
  parseInstructions := fun pd w => (0, pd, w);
  getOutputRegisters := fun pd w => ("r0 r1", pd, w);
  combineInstructions := fun pd _ w => (pd, w);
  computeAttachVariables := fun pd w => (pd, w);
  computeTokenInstructions := fun pd w => (pd, w);
  createProcessorModule := fun pd w => (output_status, pd, w);
  clearParserData := fun pd w => (pd, w)
|}.

(** A parser whose register initialisation or parsing fails with [-1]. *)
Definition failing_routines (init parse : Z) : Routines unit unit unit := {|
  initRegisters := fun _ w => (init, w);
  parseInstructions := fun pd w => (parse, pd, w);
  getOutputRegisters := fun pd w => ("r0 r1", pd, w);
  combineInstructions := fun pd _ w => (pd, w);
  computeAttachVariables := fun pd w => (pd, w);
  computeTokenInstructions := fun pd w => (pd, w);
  createProcessorModule := fun pd w => (0, pd, w);
  clearParserData := fun pd w => (pd, w)
|}.

Definition empty_data : PARSED_DATA unit unit :=
  mkParsedData "" "" "" "" 0 0 false false 0 [] tt.

Definition no_options : Options :=
  mkOptions None None None None None None false false false false None false.

(** [--help -e middle]: the usage screen is asked for, the endianness is
    invalid and there is no input file. *)
Definition help_with_bad_endian : Options :=
  mkOptions None None None (Some "middle") None None
            false false false false None true.

(** [-e little]: no input file. *)
Definition endian_only : Options :=
  mkOptions None None None (Some "little") None None
            false false false false None false.

(** [-i insns.txt -e middle]. *)
Definition bad_endian : Options :=
  mkOptions (Some "insns.txt") None None (Some "middle") None None
            false false false false None false.

(** [-i insns.txt --print-registers-only]. *)
Definition registers_only : Options :=
  mkOptions (Some "insns.txt") None None None None None
            true false false false None false.

(** [-i insns.txt --skip-instruction-combining]. *)
Definition skip_combining : Options :=
  mkOptions (Some "insns.txt") None None None None None
            false false false true None false.

(** [-i insns.txt] and nothing else. *)
Definition only_input : Options :=
  mkOptions (Some "insns.txt") None None None None None
            false false false false None false.

(** Parsed data as a constructor could leave it, with values in the members
    that [main] overwrites. *)
Definition stale_data : PARSED_DATA unit unit :=
  mkParsedData "" "Old" "OldFamily" "middle" 7 64 true true 99 [] tt.

(** ** The combining engine

    [combineInstructions] is declared in [parser.h]; its body is not part of
    [main.cpp].  The three passes are modelled here from their contracts in
    the specification (sections 3 and 4.1 to 4.3).  Where the contracts leave
    a choice open (which candidate ranges a pass tries, when an immediate is
    signed) the choice is a parameter, and the statements hold for every
    value of it.  The diagnostics of a refused merge and the renaming of the
    operand tokens of a combined entry are not modelled; no statement depends
    on them. *)

Module Combiner.

Local Open Scope nat_scope.

(** Modelled from the spec: a bit symbol of a BitPattern (the data model of
    the combiner is missing from the sources), a literal 0/1 or a reference
    to a field-id. *)
Inductive BitSymbol : Type :=
  | Literal (b : bool)
  | FieldRef (fieldId : nat).

(** Modelled from the spec: BitPattern, a fixed-length ordered sequence of
    bit symbols, most significant bit first. *)
Definition BitPattern : Type := list BitSymbol.

(** Modelled from the spec: a contiguous bit range of a pattern, the
    positions [firstBit], ..., [firstBit + bitWidth - 1]. *)
Record BitRange : Type := mkBitRange {
  firstBit : nat;
  bitWidth : nat
}.

(** Modelled from the spec: OperandField, one of Fixed, ImmediateField
    {bitRange, signed/unsigned}, RegisterField {bitRange, attachGroupId}. *)
Inductive OperandField : Type :=
  | Fixed
  | ImmediateField (bitRange : BitRange) (signed : bool)
  | RegisterField (bitRange : BitRange) (attachGroupId : nat).

(** Modelled from the spec: InstructionEntry {mnemonic, operandSyntaxTokens,
    BitPattern, sourceOrdinal} with the OperandField list produced by
    merging; a field-id in the pattern is a position in that list. *)
Record InstructionEntry : Type := mkEntry {
  mnemonic : string;
  operandSyntaxTokens : list string;
  bitPattern : BitPattern;
  sourceOrdinal : nat;
  operandFields : list OperandField
}.

(** Modelled from the spec: Register {name, bitWidth} and the
    RegisterCatalog, the set of known register symbols. *)
Record Register : Type := mkRegister {
  name : string;
  registerWidth : nat
}.

Definition RegisterCatalog : Type := list Register.

(** Modelled from the spec: AttachGroup {id, orderedList<(encodingValue,
    registerName)>}. *)
Record AttachGroup : Type := mkAttachGroup {
  groupId : nat;
  mapping : list (nat * string)
}.

(** Modelled from the spec: InstructionModel, the working aggregate: the
    ordered list of instruction entries currently known, with the attach
    groups the register fields refer to and the register catalog. *)
Record InstructionModel : Type := mkModel {
  entries : list InstructionEntry;
  attachGroups : list AttachGroup;
  catalog : RegisterCatalog
}.

(** *** Decidable equalities *)

Definition BitSymbol_eq_dec (a b : BitSymbol) : {a = b} + {a <> b}.
Proof. decide equality; [apply Bool.bool_dec | apply Nat.eq_dec]. Defined.

Definition BitRange_eq_dec (a b : BitRange) : {a = b} + {a <> b}.
Proof. decide equality; apply Nat.eq_dec. Defined.

Definition OperandField_eq_dec (a b : OperandField) : {a = b} + {a <> b}.
Proof.
  decide equality;
    try apply Bool.bool_dec; try apply Nat.eq_dec; apply BitRange_eq_dec.
Defined.

(** *** Patterns by position *)

(** [f] applied to every element with its position, counted from [i]. *)
Fixpoint imap_from {A B} (i : nat) (f : nat -> A -> B) (l : list A) : list B :=
  match l with
  | [] => []
  | a :: l' => f i a :: imap_from (S i) f l'
  end.

Definition imap {A B} (f : nat -> A -> B) (l : list A) : list B :=
  imap_from 0 f l.

Definition in_range (r : BitRange) (i : nat) : bool :=
  (firstBit r <=? i) && (i <? firstBit r + bitWidth r).

(** All of a list of optional items, if none is missing. *)
Fixpoint collect {A} (l : list (option A)) : option (list A) :=
  match l with
  | [] => Some []
  | None :: _ => None
  | Some a :: l' =>
      match collect l' with
      | Some r => Some (a :: r)
      | None => None
      end
  end.

(** The literal bit at a position, if there is one. *)
Definition bit_at (p : BitPattern) (i : nat) : option bool :=
  match nth_error p i with
  | Some (Literal b) => Some b
  | _ => None
  end.

(** The literal value a pattern carries on a range. *)
Definition value_on (r : BitRange) (p : BitPattern) : option (list bool) :=
  collect (map (bit_at p) (seq (firstBit r) (bitWidth r))).

(** The encoding value of a run of bits, most significant first. *)
Definition bits_to_nat (v : list bool) : nat :=
  fold_left (fun acc (b : bool) => 2 * acc + (if b then 1 else 0)) v 0.

(** Pairwise distinct. *)
Fixpoint distinct {A} (eq_dec : forall a b : A, {a = b} + {a <> b})
    (l : list A) : bool :=
  match l with
  | [] => true
  | a :: l' => (if in_dec eq_dec a l' then false else true) && distinct eq_dec l'
  end.

(** *** What an entry stands for *)

Definition field_range (f : OperandField) : option BitRange :=
  match f with
  | Fixed => None
  | ImmediateField r _ => Some r
  | RegisterField r _ => Some r
  end.

Definition find_group (gid : nat) (groups : list AttachGroup) : option AttachGroup :=
  find (fun g => groupId g =? gid) groups.

(** Modelled from the spec: the legal values of an OperandField.  A Fixed
    field has no variation; the legal domain of an ImmediateField is governed
    by its width; a RegisterField takes the encoding values of its
    AttachGroup. *)
Definition legal_value (groups : list AttachGroup) (f : OperandField)
    (v : list bool) : bool :=
  match f with
  | Fixed => match v with [] => true | _ => false end
  | ImmediateField r _ => List.length v =? bitWidth r
  | RegisterField r gid =>
      (List.length v =? bitWidth r)
      && match find_group gid groups with
         | Some g => existsb (fun m => fst m =? bits_to_nat v) (mapping g)
         | None => false
         end
  end.

(** The symbol at position [i] once field [id] has the value [vals[id]]. *)
Definition substitute_symbol (fields : list OperandField)
    (vals : list (list bool)) (i : nat) (s : BitSymbol) : BitSymbol :=
  match s with
  | Literal b => Literal b
  | FieldRef id =>
      match nth_error fields id, nth_error vals id with
      | Some f, Some v =>
          match field_range f with
          | Some r =>
              match nth_error v (i - firstBit r) with
              | Some b => Literal b
              | None => s
              end
          | None => s
          end
      | _, _ => s
      end
  end.

(** Modelled from the spec: substituting a value for each of an entry's
    OperandFields. *)
Definition substitute (e : InstructionEntry) (vals : list (list bool)) : BitPattern :=
  imap (substitute_symbol (operandFields e) vals) (bitPattern e).

(** Modelled from the spec: substituting the legal values [vals] for the
    OperandFields of [e] reproduces the pattern [p]. *)
Definition reproduces (groups : list AttachGroup) (e : InstructionEntry)
    (vals : list (list bool)) (p : BitPattern) : Prop :=
  Forall2 (fun f v => legal_value groups f v = true) (operandFields e) vals
  /\ substitute e vals = p.

(** Modelled from the spec: some legal values for the OperandFields of [e]
    reproduce [p]. *)
Definition covers (groups : list AttachGroup) (e : InstructionEntry)
    (p : BitPattern) : Prop :=
  exists vals, reproduces groups e vals p.

(** Modelled from the spec: a raw entry has literal bits only and no
    OperandFields beyond Fixed. *)
Definition is_literal (s : BitSymbol) : bool :=
  match s with
  | Literal _ => true
  | FieldRef _ => false
  end.

Definition is_fixed (f : OperandField) : bool :=
  match f with
  | Fixed => true
  | _ => false
  end.

Definition raw (e : InstructionEntry) : bool :=
  forallb is_literal (bitPattern e) && forallb is_fixed (operandFields e).

(** Every field reference of the pattern has its field in the list. *)
Definition bound_symbol (fields : list OperandField) (s : BitSymbol) : bool :=
  match s with
  | Literal _ => true
  | FieldRef id => id <? List.length fields
  end.

Definition well_formed (e : InstructionEntry) : bool :=
  forallb (bound_symbol (operandFields e)) (bitPattern e).

(** *** Pass 1: duplicates *)

(** Modelled from the spec: the key of the DuplicateCombiner,
    (mnemonic, BitPattern, operandSyntaxTokens). *)
Definition key (e : InstructionEntry) : string * BitPattern * list string :=
  (mnemonic e, bitPattern e, operandSyntaxTokens e).

Definition key_eq_dec (a b : string * BitPattern * list string)
  : {a = b} + {a <> b}.
Proof.
  repeat decide equality; try apply Bool.bool_dec; apply Ascii.ascii_dec.
Defined.

Arguments key_eq_dec : simpl never.

Definition with_ordinal (e : InstructionEntry) (n : nat) : InstructionEntry :=
  mkEntry (mnemonic e) (operandSyntaxTokens e) (bitPattern e) n
          (operandFields e).

(** The kept entry takes the lower of the two source ordinals. *)
Definition absorb (kept e : InstructionEntry) : InstructionEntry :=
  with_ordinal kept (Nat.min (sourceOrdinal kept) (sourceOrdinal e)).

(** [e] joins the entry of its key, or is appended as a new one. *)
Fixpoint absorb_into (e : InstructionEntry) (out : list InstructionEntry)
  : list InstructionEntry :=
  match out with
  | [] => [e]
  | k :: out' =>
      if key_eq_dec (key k) (key e) then absorb k e :: out'
      else k :: absorb_into e out'
  end.

(** Modelled from the spec: DuplicateCombiner (pass 1 of
    [combineInstructions], whose body is missing): one entry per distinct
    (mnemonic, BitPattern, operandSyntaxTokens) key, each retaining the
    lowest sourceOrdinal among the entries it absorbed; entries that share a
    BitPattern but differ in mnemonic have different keys and both stay. *)
Definition DuplicateCombiner (l : list InstructionEntry) : list InstructionEntry :=
  fold_left (fun out e => absorb_into e out) l [].

(** *** Grouping for passes 2 and 3 *)

(** A group: its first member and the others, in list order. *)
Definition Group : Type := (InstructionEntry * list InstructionEntry)%type.

Definition members (g : Group) : list InstructionEntry := fst g :: snd g.

(** The pattern with the positions of the candidate range blanked. *)
Definition mask (r : BitRange) (p : BitPattern) : list (option BitSymbol) :=
  imap (fun i s => if in_range r i then None else Some s) p.

(** Modelled from the spec: the grouping key of passes 2 and 3, (mnemonic,
    operand token count, all bit positions outside a candidate varying
    range).  A field reference outside the range stands for its field, so
    the OperandField list is part of the key. *)
Definition group_key (r : BitRange) (e : InstructionEntry)
  : string * nat * list (option BitSymbol) * list OperandField :=
  (mnemonic e, List.length (operandSyntaxTokens e), mask r (bitPattern e),
   operandFields e).

Definition group_key_eq_dec
    (a b : string * nat * list (option BitSymbol) * list OperandField)
  : {a = b} + {a <> b}.
Proof.
  repeat decide equality;
    try apply Bool.bool_dec; try apply Ascii.ascii_dec.
Defined.

Arguments group_key_eq_dec : simpl never.

(** Modelled from the spec: grouping by the key.  [e] joins the group whose
    first member has its key, or starts a new group. *)
Fixpoint add_to_groups (r : BitRange) (e : InstructionEntry) (gs : list Group)
  : list Group :=
  match gs with
  | [] => [(e, [])]
  | g :: gs' =>
      if group_key_eq_dec (group_key r (fst g)) (group_key r e)
      then (fst g, snd g ++ [e]) :: gs'
      else g :: add_to_groups r e gs'
  end.

(** Modelled from the spec: the groups of a list for the candidate range
    [r], in the order in which their first members occur. *)
Definition group_by (r : BitRange) (l : list InstructionEntry) : list Group :=
  fold_left (fun gs e => add_to_groups r e gs) l [].

Definition symbol_at (e : InstructionEntry) (i : nat) : option BitSymbol :=
  nth_error (bitPattern e) i.

Definition option_symbol_eq_dec (a b : option BitSymbol) : {a = b} + {a <> b}.
Proof. decide equality; apply BitSymbol_eq_dec. Defined.

Arguments option_symbol_eq_dec : simpl never.

(** Some member differs from the first at position [i]. *)
Definition differs_at (g : Group) (i : nat) : bool :=
  existsb (fun e =>
             if option_symbol_eq_dec (symbol_at e i) (symbol_at (fst g) i)
             then false else true)
          (snd g).

(** Modelled from the spec: the set of bit positions whose value differs
    across the members of a group. *)
Definition differing_positions (g : Group) : list nat :=
  filter (differs_at g) (seq 0 (List.length (bitPattern (fst g)))).

(** Modelled from the spec: condition (a), the differing positions form one
    contiguous range. *)
Definition contiguous_range (d : list nat) : option BitRange :=
  match d with
  | [] => None
  | lo :: _ =>
      if list_eq_dec Nat.eq_dec d (seq lo (List.length d))
      then Some (mkBitRange lo (List.length d))
      else None
  end.

(** Modelled from the spec: the checks on a group of the candidate range
    [r].  (a) the differing positions form one contiguous range; (b) the
    members are identical outside the candidate range, which holds by the
    grouping key; (c) the members carry pairwise distinct literal values on
    the range.  The result is the value of each member, in list order. *)
Definition varying_values (r : BitRange) (g : Group) : option (list (list bool)) :=
  match contiguous_range (differing_positions g) with
  | None => None
  | Some _ =>
      match collect (map (fun e => value_on r (bitPattern e)) (members g)) with
      | None => None
      | Some vs =>
          if distinct (list_eq_dec Bool.bool_dec) vs then Some vs else None
      end
  end.

(** The positions of the range become references to field [id]. *)
Definition bind_range (r : BitRange) (id : nat) (p : BitPattern) : BitPattern :=
  imap (fun i s => if in_range r i then FieldRef id else s) p.

(** Modelled from the spec: the combined entry that replaces a group: the
    first member, the candidate range reinterpreted as the new field [f]. *)
Definition generalize (g : Group) (r : BitRange) (f : OperandField)
  : InstructionEntry :=
  let e := fst g in
  mkEntry (mnemonic e) (operandSyntaxTokens e)
          (bind_range r (List.length (operandFields e)) (bitPattern e))
          (sourceOrdinal e) (operandFields e ++ [f]).

(** *** Pass 3: what the register catalog decides *)

Definition known_register (cat : RegisterCatalog) (t : string) : bool :=
  existsb (fun r => String.eqb (name r) t) cat.

(** The operand token of [e] at position [k], if it names a known register. *)
Definition register_at (cat : RegisterCatalog) (k : nat) (e : InstructionEntry)
  : option string :=
  match nth_error (operandSyntaxTokens e) k with
  | Some t => if known_register cat t then Some t else None
  | None => None
  end.

(** The register symbols of the members at operand position [k], if each is
    known and no two are the same. *)
Definition register_symbols (cat : RegisterCatalog) (g : Group) (k : nat)
  : option (list string) :=
  match collect (map (register_at cat k) (members g)) with
  | Some ss => if distinct string_dec ss then Some ss else None
  | None => None
  end.

Fixpoint first_some {A B} (f : A -> option B) (l : list A) : option B :=
  match l with
  | [] => None
  | a :: l' =>
      match f a with
      | Some b => Some b
      | None => first_some f l'
      end
  end.

(** Modelled from the spec: every member's value resolves to a distinct
    known register symbol, which is the operand token at the operand
    position of the field. *)
Definition resolve_registers (cat : RegisterCatalog) (g : Group)
  : option (list string) :=
  first_some (register_symbols cat g)
             (seq 0 (List.length (operandSyntaxTokens (fst g)))).

Fixpoint insert_by_value (x : nat * string) (l : list (nat * string))
  : list (nat * string) :=
  match l with
  | [] => [x]
  | y :: l' => if fst x <=? fst y then x :: l else y :: insert_by_value x l'
  end.

(** Modelled from the spec: the ordered (value, registerName) list, in
    encoding-value order. *)
Definition in_value_order (l : list (nat * string)) : list (nat * string) :=
  fold_right insert_by_value [] l.

Definition fresh_group_id (groups : list AttachGroup) : nat :=
  S (list_max (map groupId groups)).

(** *** Notions for the statements about the passes *)

(** Every member of a group has the key of the first. *)
Definition consistent (r : BitRange) (g : Group) : Prop :=
  forall x, In x (members g) -> group_key r x = group_key r (fst g).

(** Modelled from the spec: an entry absorbed into a merged entry.  [e] is
    a member of a group for the candidate range [r] (entries of one
    mnemonic, one operand token count, one OperandField list and one
    pattern outside [r]), it carries a literal value on [r], and [m] is the
    combined entry of that group: its first member with [r] turned into the
    field [f]. *)
Definition absorbed_into (m e : InstructionEntry) : Prop :=
  exists r g f v,
    consistent r g /\ In e (members g)
    /\ field_range f = Some r
    /\ value_on r (bitPattern e) = Some v
    /\ m = generalize g r f.

(** Modelled from the spec: what passes 2 and 3 make of an entry: the entry
    itself, unmerged, or the merged entry that absorbed it, which may be
    absorbed in turn when a later candidate range is tried. *)
Inductive merged_from (e : InstructionEntry) : InstructionEntry -> Prop :=
  | merged_itself : merged_from e e
  | merged_step (e' m : InstructionEntry) :
      merged_from e e' -> absorbed_into m e' -> merged_from e m.

Definition all_well_formed (l : list InstructionEntry) : Prop :=
  forall e, In e l -> well_formed e = true.

Definition same_but_ordinal (x' x : InstructionEntry) : Prop :=
  exists n, x' = with_ordinal x n.

(** Modelled from the spec: what pass 1 makes of an entry [e] of the list
    [l]: the one output entry [e'] of its key.  It has the mnemonic, the
    BitPattern and the operand tokens of [e], a source ordinal that is not
    higher, and is an entry of [l] but for its source ordinal. *)
Definition kept_for (l : list InstructionEntry) (e e' : InstructionEntry)
  : Prop :=
  key e' = key e
  /\ sourceOrdinal e' <= sourceOrdinal e
  /\ exists e0, In e0 l /\ same_but_ordinal e' e0.

(** Modelled from the spec: an input entry is represented by an output
    entry: some entry [e'] of [out] is what the pass made of [e] (the
    relation [how]: the entry itself, unmerged, or the entry that absorbed
    it), and [e'] reproduces every pattern that [e] reproduced. *)
Definition represented
    (how : InstructionEntry -> InstructionEntry -> Prop)
    (groups groups' : list AttachGroup)
    (out : list InstructionEntry) (e : InstructionEntry) : Prop :=
  exists e', In e' out /\ how e e'
             /\ forall p, covers groups e p -> covers groups' e' p.

Section Passes.

(** The spec leaves open which candidate varying ranges a pass tries and in
    which order, and when the syntax of an immediate indicates a signed
    field; both are parameters of the passes. *)
Variable candidateRanges : COMBINE_MODE -> list InstructionEntry -> list BitRange.
Variable syntaxSigned : list string -> bool.

(** Modelled from the spec: the merge of pass 2.  A group that passes
    (a)-(c) becomes one entry with an ImmediateField on its varying range;
    any other group is refused. *)
Definition merge_immediates (r : BitRange) (g : Group)
  : option InstructionEntry :=
  match varying_values r g with
  | Some _ =>
      Some (generalize g r
              (ImmediateField r (syntaxSigned (operandSyntaxTokens (fst g)))))
  | None => None
  end.

Definition combine_immediates_on (r : BitRange) (l : list InstructionEntry)
  : list InstructionEntry :=
  flat_map (fun g => match merge_immediates r g with
                     | Some m => [m]
                     | None => members g
                     end)
           (group_by r l).

(** Modelled from the spec: ImmediateCombiner (pass 2 of
    [combineInstructions], whose body is missing): for each candidate
    range, the entries are grouped by the key and every group that can be
    merged is replaced by its combined entry; the others are left
    unmerged. *)
Definition ImmediateCombiner (l : list InstructionEntry) : list InstructionEntry :=
  fold_left (fun acc r => combine_immediates_on r acc)
            (candidateRanges COMBINE_IMMEDIATES l) l.

(** Modelled from the spec: the merge of pass 3.  As pass 2, and the
    values must resolve to distinct known registers; the result is a
    RegisterField bound to a new AttachGroup built from the group. *)
Definition merge_registers (cat : RegisterCatalog) (groups : list AttachGroup)
    (r : BitRange) (g : Group) : option (InstructionEntry * AttachGroup) :=
  match varying_values r g with
  | Some vs =>
      match resolve_registers cat g with
      | Some ss =>
          let gid := fresh_group_id groups in
          Some (generalize g r (RegisterField r gid),
                mkAttachGroup gid
                  (in_value_order (combine (map bits_to_nat vs) ss)))
      | None => None
      end
  | None => None
  end.

Definition combine_group_registers (cat : RegisterCatalog) (r : BitRange)
    (st : list InstructionEntry * list AttachGroup) (g : Group)
  : list InstructionEntry * list AttachGroup :=
  match merge_registers cat (snd st) r g with
  | Some (m, ag) => (fst st ++ [m], snd st ++ [ag])
  | None => (fst st ++ members g, snd st)
  end.

Definition combine_registers_on (cat : RegisterCatalog) (r : BitRange)
    (st : list InstructionEntry * list AttachGroup)
  : list InstructionEntry * list AttachGroup :=
  fold_left (combine_group_registers cat r) (group_by r (fst st)) ([], snd st).

(** Modelled from the spec: RegisterCombiner (pass 3 of
    [combineInstructions], whose body is missing). *)
Definition RegisterCombiner (cat : RegisterCatalog)
    (st : list InstructionEntry * list AttachGroup)
  : list InstructionEntry * list AttachGroup :=
  fold_left (fun st r => combine_registers_on cat r st)
            (candidateRanges COMBINE_REGISTERS (fst st)) st.

(** Modelled from the spec: [combineInstructions] of [parser.h], called by
    [main] with the three modes in turn (lines 122, 125 and 128). *)
Definition combineInstructions (model : InstructionModel) (mode : COMBINE_MODE)
  : InstructionModel :=
  match mode with
  | COMBINE_DUPLICATES =>
      mkModel (DuplicateCombiner (entries model)) (attachGroups model)
              (catalog model)
  | COMBINE_IMMEDIATES =>
      mkModel (ImmediateCombiner (entries model)) (attachGroups model)
              (catalog model)
  | COMBINE_REGISTERS =>
      let st := RegisterCombiner (catalog model)
                  (entries model, attachGroups model) in
      mkModel (fst st) (snd st) (catalog model)
  end.

(** Lines 119-129 of [main]: the three passes in their order. *)
Definition combine_passes (model : InstructionModel) : InstructionModel :=
  combineInstructions
    (combineInstructions
       (combineInstructions model COMBINE_DUPLICATES)
       COMBINE_IMMEDIATES)
    COMBINE_REGISTERS.

End Passes.

(** Modelled from the spec: the InstructionModel built from the raw entries
    and the register catalog, before any pass. *)
Definition initial_model (cat : RegisterCatalog) (raws : list InstructionEntry)
  : InstructionModel :=
  mkModel raws [] cat.

End Combiner.

(** ** Instruction lists to run the passes on *)

Definition bits (s : string) : Combiner.BitPattern :=
  map (fun c => Combiner.Literal (Ascii.eqb c "1"%char)) (list_ascii_of_string s).

Definition raw_entry (mnem : string) (tokens : list string) (pattern : string)
    (ordinal : nat) : Combiner.InstructionEntry :=
  Combiner.mkEntry mnem tokens (bits pattern) ordinal [].

(** The candidate ranges [imm] in pass 2 and [reg] in pass 3. *)
Definition try_ranges (imm reg : list Combiner.BitRange) (mode : COMBINE_MODE)
    (l : list Combiner.InstructionEntry) : list Combiner.BitRange :=
  match mode with
  | COMBINE_DUPLICATES => []
  | COMBINE_IMMEDIATES => imm
  | COMBINE_REGISTERS => reg
  end.

(** Passes 2 and 3 both try the whole of a 2-bit pattern as the candidate
    range. *)
Definition whole_pattern
  : COMBINE_MODE -> list Combiner.InstructionEntry -> list Combiner.BitRange :=
  try_ranges [Combiner.mkBitRange 0 2] [Combiner.mkBitRange 0 2].

Definition unsigned_syntax (tokens : list string) : bool := false.

Definition sample_catalog : Combiner.RegisterCatalog :=
  [Combiner.mkRegister "R0" 32; Combiner.mkRegister "R1" 32;
   Combiner.mkRegister "R2" 32].

(** The conflict example of the spec: ADD and SUB with one BitPattern. *)
Definition conflict_raws : list Combiner.InstructionEntry :=
  [raw_entry "ADD" [] "01" 0; raw_entry "SUB" [] "01" 1].

(** Example A of the spec. *)
Definition add_raws : list Combiner.InstructionEntry :=
  [raw_entry "ADD" ["R0"; "R1"] "0000000000000001" 0;
   raw_entry "ADD" ["R0"; "R2"] "0000000000000010" 1].

(** Three of the four values of a 2-bit field, one entry twice. *)
Definition movi_raws : list Combiner.InstructionEntry :=
  [raw_entry "MOVI" ["0"] "000100" 0; raw_entry "MOVI" ["1"] "000101" 1;
   raw_entry "MOVI" ["2"] "000110" 2; raw_entry "MOVI" ["2"] "000110" 3].

(** * Properties of the driver *)

Section DriverFacts.

Import Driver.

Context {World Instruction Engine : Type}.
Context {routines : Routines World Instruction Engine}.

Implicit Types (argc : Z) (o : Options) (cl : CommandLine) (w : World).
Implicit Types (pd : PARSED_DATA Instruction Engine).
Implicit Types (m : @Machine World Instruction Engine).

(** Unfold the statements of the driver, then the projections of the states
    they build. *)
Ltac unfold_stmts :=
  cbv [main_body pipeline CLEANUP command_line_arg_parsing prologue
       bind pure return_ goto_CLEANUP skip log cout get notify set_result
       call call_void call_initRegisters call_parseInstructions
       call_getOutputRegisters call_combineInstructions
       call_computeAttachVariables call_computeTokenInstructions
       call_createProcessorModule call_clearParserData
       parsedData additionalRegisters skipInstructionCombining
       printRegistersOnly result world trace fst snd] in *.

Ltac project :=
  cbn [parsedData additionalRegisters skipInstructionCombining
       printRegistersOnly result world trace fst snd negb Bool.eqb
       endian allInstructions].

Ltac flatten_trace := rewrite <- ?app_assoc; cbn [app].

(** *** The command line *)

Lemma command_line_help argc o m :
  help_requested argc o = true ->
  command_line_arg_parsing argc (Parsed o) m
  = Return 0
      (mkMachine (parsedData (state_of (notify o m)))
         (additionalRegisters (state_of (notify o m)))
         (skipInstructionCombining (state_of (notify o m)))
         (printRegistersOnly (state_of (notify o m))) (result m)
         (world m) (trace m ++ [SayUsage])).
Proof.
  intros H. destruct m as [pd ar sic pro res w tr].
  unfold_stmts. rewrite H. reflexivity.
Qed.

Lemma command_line_no_input argc o m :
  help_requested argc o = false ->
  input_file_missing o = true ->
  exists m',
    command_line_arg_parsing argc (Parsed o) m = Return (-1) m'
    /\ trace m' = trace m ++ [Say "Input file name is required!!"].
Proof.
  intros H1 H2. destruct m as [pd ar sic pro res w tr].
  unfold_stmts. rewrite H1, H2.
  eexists. split; reflexivity.
Qed.

Lemma command_line_bad_endian argc o m :
  help_requested argc o = false ->
  input_file_missing o = false ->
  endian_invalid (default_value (opt_endian o) "big") = true ->
  exists m',
    command_line_arg_parsing argc (Parsed o) m = Return (-1) m'
    /\ trace m' = trace m
         ++ [Say "Processor endianness must be either big or little!!"].
Proof.
  intros H1 H2 H3. destruct m as [pd ar sic pro res w tr].
  unfold_stmts. rewrite H1, H2. project. rewrite H3.
  eexists. split; reflexivity.
Qed.

Lemma reaches_pipeline_inv argc o :
  reaches_pipeline argc (Parsed o) = true ->
  help_requested argc o = false
  /\ input_file_missing o = false
  /\ endian_invalid (default_value (opt_endian o) "big") = false.
Proof.
  unfold reaches_pipeline. intros H.
  apply andb_prop in H. destruct H as [H H3].
  apply andb_prop in H. destruct H as [H1 H2].
  rewrite negb_true_iff in H1, H2, H3. auto.
Qed.

Lemma command_line_accepted argc o m :
  reaches_pipeline argc (Parsed o) = true ->
  command_line_arg_parsing argc (Parsed o) m = notify o m.
Proof.
  intros H. apply reaches_pipeline_inv in H. destruct H as (H1 & H2 & H3).
  destruct m as [pd ar sic pro res w tr].
  unfold_stmts. rewrite H1, H2. project. rewrite H3. reflexivity.
Qed.

(** Every command line is of one of the kinds above. *)
Lemma command_line_cases argc o :
  help_requested argc o = true
  \/ (help_requested argc o = false /\ input_file_missing o = true)
  \/ (help_requested argc o = false /\ input_file_missing o = false
      /\ endian_invalid (default_value (opt_endian o) "big") = true)
  \/ reaches_pipeline argc (Parsed o) = true.
Proof.
  unfold reaches_pipeline.
  destruct (help_requested argc o); auto.
  destruct (input_file_missing o); auto.
  destruct (endian_invalid _); auto 6.
Qed.

(** *** The pipeline, from any state *)

Lemma pipeline_init_failure m :
  init_status m <> 0 ->
  pipeline m
  = GotoCleanup
      (mkMachine (parsedData m) (additionalRegisters m)
         (skipInstructionCombining m) (printRegistersOnly m)
         (init_status m) (snd (init_outcome m))
         (trace m
          ++ [Say "[*] Initializing default Ghidra registers";
              Call_initRegisters (additionalRegisters m);
              Say "[-] Failed to initialize default Ghidra registers!!"])).
Proof.
  intros H. apply Z.eqb_neq in H. destruct m as [pd ar sic pro res w tr].
  unfold init_status, init_outcome in *.
  unfold_stmts. rewrite H. project. flatten_trace. reflexivity.
Qed.

Lemma pipeline_parse_failure m :
  init_status m = 0 ->
  parse_status m <> 0 ->
  pipeline m
  = GotoCleanup
      (mkMachine (fst (parsed_store m)) (additionalRegisters m)
         (skipInstructionCombining m) (printRegistersOnly m)
         (parse_status m) (snd (parsed_store m))
         (trace m
          ++ [Say "[*] Initializing default Ghidra registers";
              Call_initRegisters (additionalRegisters m);
              Say "[*] Parsing instructions";
              Call_parseInstructions;
              Say "[-] Failed to parse instructions"])).
Proof.
  intros Hi Hp. apply Z.eqb_neq in Hp. apply Z.eqb_eq in Hi.
  destruct m as [pd ar sic pro res w tr].
  unfold parsed_store, parse_status, parse_outcome, init_status,
    init_outcome in *.
  unfold_stmts. rewrite Hi. project. rewrite Hp. project.
  flatten_trace. reflexivity.
Qed.

Lemma pipeline_print_registers_only m :
  init_status m = 0 ->
  parse_status m = 0 ->
  printRegistersOnly m = true ->
  exists m',
    pipeline m = GotoCleanup m'
    /\ result m' = 0
    /\ trace m'
       = trace m
         ++ [Say "[*] Initializing default Ghidra registers";
             Call_initRegisters (additionalRegisters m);
             Say "[*] Parsing instructions";
             Call_parseInstructions;
             SayParsed (List.length (allInstructions (fst (parsed_store m))));
             Call_getOutputRegisters;
             SayFoundRegisters
               (fst (fst (getOutputRegisters (fst (parsed_store m))
                                             (snd (parsed_store m)))));
             Say "If there are any issues edit registers.h before proceeding."].
Proof.
  intros Hi Hp Hflag. apply Z.eqb_eq in Hi, Hp.
  destruct m as [pd ar sic pro res w tr].
  unfold parsed_store, parse_status, parse_outcome, init_status,
    init_outcome in *.
  unfold_stmts. rewrite Hi. project. rewrite Hp. project.
  rewrite Hflag. eexists. split; [reflexivity|].
  project. flatten_trace. split; reflexivity.
Qed.

Lemma pipeline_full_run m :
  init_status m = 0 ->
  parse_status m = 0 ->
  printRegistersOnly m = false ->
  exists m',
    pipeline m = Next tt m'
    /\ result m' = 0
    /\ (parsedData m', world m')
       = output_stage (engine_stages (skipInstructionCombining m)
                                     (parsed_store m))
    /\ trace m'
       = trace m
         ++ [Say "[*] Initializing default Ghidra registers";
             Call_initRegisters (additionalRegisters m);
             Say "[*] Parsing instructions";
             Call_parseInstructions;
             SayParsed (List.length (allInstructions (fst (parsed_store m))))]
         ++ engine_events (skipInstructionCombining m).
Proof.
  intros Hi Hp Hflag. apply Z.eqb_eq in Hi, Hp.
  destruct m as [pd ar sic pro res w tr].
  unfold parsed_store, parse_status, parse_outcome, init_status,
    init_outcome, output_stage, engine_stages, stage in *.
  unfold_stmts. rewrite Hi. project. rewrite Hp. project.
  rewrite Hflag.
  destruct sic; project;
    (eexists; split; [reflexivity|]); project; flatten_trace;
    repeat split; reflexivity.
Qed.

(** *** From the statements to [main] *)

Lemma main_of_return argc cl pd0 w0 c m :
  main_body argc cl (entry pd0 w0) = Return c m ->
  main argc cl pd0 w0 = mkRun c (trace m) m.
Proof. intros H. unfold main. rewrite H. reflexivity. Qed.

Lemma main_of_cleanup argc cl pd0 w0 m :
  main_body argc cl (entry pd0 w0) = GotoCleanup m
  \/ main_body argc cl (entry pd0 w0) = Next tt m ->
  exit_code (main argc cl pd0 w0) = result m
  /\ events (main argc cl pd0 w0) = trace m ++ [Call_clearParserData]
  /\ (parsedData (final (main argc cl pd0 w0)),
      world (final (main argc cl pd0 w0)))
     = teardown_stage (parsedData m, world m).
Proof.
  intros [H|H]; unfold main; rewrite H; unfold teardown_stage;
    unfold_stmts; cbn; destruct (clearParserData _ _); auto.
Qed.

Lemma main_body_rejected argc cl pd0 w0 c m :
  command_line_arg_parsing argc cl (state_of (prologue (entry pd0 w0)))
  = Return c m ->
  main_body argc cl (entry pd0 w0) = Return c m.
Proof.
  intros H. unfold main_body, bind at 1. cbn [prologue].
  unfold bind at 1. cbn [state_of prologue] in H.
  unfold cout, log in *. cbn in H |- *. rewrite H. reflexivity.
Qed.

Lemma main_body_accepted argc o pd0 w0 :
  reaches_pipeline argc (Parsed o) = true ->
  main_body argc (Parsed o) (entry pd0 w0) = pipeline (configured o pd0 w0).
Proof.
  intros H. unfold main_body, bind at 1. unfold prologue, cout, log at 1.
  unfold bind at 1. rewrite (command_line_accepted _ _ _ H).
  reflexivity.
Qed.

(** *** The runs of [main], kind by kind *)

Lemma main_boost_error argc what pd0 w0 :
  exit_code (main argc (BoostError what) pd0 w0) = -1
  /\ events (main argc (BoostError what) pd0 w0)
     = [banner; SayCommandLineError what].
Proof. split; reflexivity. Qed.

Lemma main_help argc o pd0 w0 :
  help_requested argc o = true ->
  exit_code (main argc (Parsed o) pd0 w0) = 0
  /\ events (main argc (Parsed o) pd0 w0) = [banner; SayUsage].
Proof.
  intros H.
  rewrite (main_of_return _ _ _ _ _ _
             (main_body_rejected _ _ _ _ _ _ (command_line_help _ _ _ H))).
  split; reflexivity.
Qed.

Lemma main_no_input argc o pd0 w0 :
  help_requested argc o = false ->
  input_file_missing o = true ->
  exit_code (main argc (Parsed o) pd0 w0) = -1
  /\ events (main argc (Parsed o) pd0 w0)
     = [banner; Say "Input file name is required!!"].
Proof.
  intros H1 H2.
  destruct (command_line_no_input argc o
              (state_of (prologue (entry pd0 w0))) H1 H2) as (m' & E & T).
  rewrite (main_of_return _ _ _ _ _ _ (main_body_rejected _ _ _ _ _ _ E)).
  cbn [exit_code events]. rewrite T. split; reflexivity.
Qed.

Lemma main_bad_endian argc o pd0 w0 :
  help_requested argc o = false ->
  input_file_missing o = false ->
  endian_invalid (default_value (opt_endian o) "big") = true ->
  exit_code (main argc (Parsed o) pd0 w0) = -1
  /\ events (main argc (Parsed o) pd0 w0)
     = [banner; Say "Processor endianness must be either big or little!!"].
Proof.
  intros H1 H2 H3.
  destruct (command_line_bad_endian argc o
              (state_of (prologue (entry pd0 w0))) H1 H2 H3) as (m' & E & T).
  rewrite (main_of_return _ _ _ _ _ _ (main_body_rejected _ _ _ _ _ _ E)).
  cbn [exit_code events]. rewrite T. split; reflexivity.
Qed.

(** A failed register initialisation: its status is the exit code. *)
Lemma main_init_failure argc o pd0 w0 :
  reaches_pipeline argc (Parsed o) = true ->
  init_status (configured o pd0 w0) <> 0 ->
  exit_code (main argc (Parsed o) pd0 w0) = init_status (configured o pd0 w0)
  /\ events (main argc (Parsed o) pd0 w0)
     = [banner; Say "[*] Initializing default Ghidra registers";
        Call_initRegisters (additionalRegisters (configured o pd0 w0));
        Say "[-] Failed to initialize default Ghidra registers!!";
        Call_clearParserData].
Proof.
  intros H Hs.
  pose proof (main_body_accepted argc o pd0 w0 H) as E.
  rewrite (pipeline_init_failure _ Hs) in E.
  destruct (main_of_cleanup _ _ _ _ _ (or_introl E)) as (Hc & He & _).
  rewrite Hc, He. split; reflexivity.
Qed.

(** A failed parse: its status is the exit code. *)
Lemma main_parse_failure argc o pd0 w0 :
  reaches_pipeline argc (Parsed o) = true ->
  init_status (configured o pd0 w0) = 0 ->
  parse_status (configured o pd0 w0) <> 0 ->
  exit_code (main argc (Parsed o) pd0 w0) = parse_status (configured o pd0 w0)
  /\ events (main argc (Parsed o) pd0 w0)
     = [banner; Say "[*] Initializing default Ghidra registers";
        Call_initRegisters (additionalRegisters (configured o pd0 w0));
        Say "[*] Parsing instructions";
        Call_parseInstructions;
        Say "[-] Failed to parse instructions";
        Call_clearParserData].
Proof.
  intros H Hi Hp.
  pose proof (main_body_accepted argc o pd0 w0 H) as E.
  rewrite (pipeline_parse_failure _ Hi Hp) in E.
  destruct (main_of_cleanup _ _ _ _ _ (or_introl E)) as (Hc & He & _).
  rewrite Hc, He. split; reflexivity.
Qed.

Lemma main_print_registers_only argc o pd0 w0 :
  parsed_ok argc o pd0 w0 ->
  opt_print_registers_only o = true ->
  exit_code (main argc (Parsed o) pd0 w0) = 0
  /\ events (main argc (Parsed o) pd0 w0)
     = parsing_events (configured o pd0 w0)
       ++ [Call_getOutputRegisters;
           SayFoundRegisters
             (fst (fst (getOutputRegisters
                          (fst (parsed_store (configured o pd0 w0)))
                          (snd (parsed_store (configured o pd0 w0))))));
           Say "If there are any issues edit registers.h before proceeding.";
           Call_clearParserData].
Proof.
  intros (H & Hi & Hp) Hflag.
  pose proof (main_body_accepted argc o pd0 w0 H) as E.
  destruct (pipeline_print_registers_only _ Hi Hp Hflag) as (m' & Em & Hr & Ht).
  rewrite Em in E.
  destruct (main_of_cleanup _ _ _ _ _ (or_introl E)) as (Hc & He & _).
  rewrite Hc, He, Hr, Ht. split; reflexivity.
Qed.

Lemma main_full_run argc o pd0 w0 :
  parsed_ok argc o pd0 w0 ->
  opt_print_registers_only o = false ->
  exit_code (main argc (Parsed o) pd0 w0) = 0
  /\ events (main argc (Parsed o) pd0 w0)
     = parsing_events (configured o pd0 w0)
       ++ engine_events (opt_skip_instruction_combining o)
       ++ [Call_clearParserData]
  /\ (parsedData (final (main argc (Parsed o) pd0 w0)),
      world (final (main argc (Parsed o) pd0 w0)))
     = teardown_stage
         (output_stage
            (engine_stages (opt_skip_instruction_combining o)
               (parsed_store (configured o pd0 w0)))).
Proof.
  intros (H & Hi & Hp) Hflag.
  pose proof (main_body_accepted argc o pd0 w0 H) as E.
  destruct (pipeline_full_run _ Hi Hp Hflag) as (m' & Em & Hr & Hs & Ht).
  rewrite Em in E.
  destruct (main_of_cleanup _ _ _ _ _ (or_intror E)) as (Hc & He & Hf).
  rewrite Hc, He, Hr, Ht, Hf, Hs.
  rewrite <- !app_assoc. repeat split; reflexivity.
Qed.

(** *** The claims about the driver *)

(** C2, as the code has it.  The value [main] returns is [0] when the usage
    screen is shown (which comes before every check) and when the run
    succeeds; it is [-1] when, no usage screen being asked for, the input
    file is missing or the endianness is neither [big] nor [little], and
    when the library rejects the command line; when the register
    initialisation or the parse fails it is the status of the failing
    routine, that is [-1] as these routines report [0] or [-1]. *)
Theorem exit_code_of_every_run argc cl pd0 w0 :
  (forall o, cl = Parsed o ->
     zero_or_minus_one (init_status (configured o pd0 w0))) ->
  (forall o, cl = Parsed o ->
     zero_or_minus_one (parse_status (configured o pd0 w0))) ->
  let code := exit_code (main argc cl pd0 w0) in
  (forall o, cl = Parsed o -> help_requested argc o = true -> code = 0)
  /\ (forall o, cl = Parsed o -> parsed_ok argc o pd0 w0 -> code = 0)
  /\ (forall o, cl = Parsed o -> help_requested argc o = false ->
        input_file_missing o = true -> code = -1)
  /\ (forall o, cl = Parsed o -> help_requested argc o = false ->
        endian_invalid (default_value (opt_endian o) "big") = true ->
        code = -1)
  /\ (forall o, cl = Parsed o -> reaches_pipeline argc cl = true ->
        init_status (configured o pd0 w0) <> 0 ->
        code = init_status (configured o pd0 w0) /\ code = -1)
  /\ (forall o, cl = Parsed o -> reaches_pipeline argc cl = true ->
        init_status (configured o pd0 w0) = 0 ->
        parse_status (configured o pd0 w0) <> 0 ->
        code = parse_status (configured o pd0 w0) /\ code = -1)
  /\ (forall what, cl = BoostError what -> code = -1)
  /\ (code = 0 \/ code = -1).
Proof.
  intros Hinit Hparse code. subst code.
  assert (Hfail_init : forall o, cl = Parsed o ->
            reaches_pipeline argc cl = true ->
            init_status (configured o pd0 w0) <> 0 ->
            exit_code (main argc cl pd0 w0) = init_status (configured o pd0 w0)
            /\ exit_code (main argc cl pd0 w0) = -1).
  { intros o -> H Hs.
    destruct (main_init_failure argc o pd0 w0 H Hs) as [-> _].
    split; [reflexivity|].
    destruct (Hinit o eq_refl) as [E|E]; [contradiction|exact E]. }
  assert (Hfail_parse : forall o, cl = Parsed o ->
            reaches_pipeline argc cl = true ->
            init_status (configured o pd0 w0) = 0 ->
            parse_status (configured o pd0 w0) <> 0 ->
            exit_code (main argc cl pd0 w0) = parse_status (configured o pd0 w0)
            /\ exit_code (main argc cl pd0 w0) = -1).
  { intros o -> H Hi Hs.
    destruct (main_parse_failure argc o pd0 w0 H Hi Hs) as [-> _].
    split; [reflexivity|].
    destruct (Hparse o eq_refl) as [E|E]; [contradiction|exact E]. }
  assert (Hok : forall o, cl = Parsed o -> parsed_ok argc o pd0 w0 ->
            exit_code (main argc cl pd0 w0) = 0).
  { intros o -> Hok.
    destruct (opt_print_registers_only o) eqn:Hflag.
    - apply (main_print_registers_only argc o pd0 w0 Hok Hflag).
    - apply (main_full_run argc o pd0 w0 Hok Hflag). }
  assert (Hendian : forall o, cl = Parsed o -> help_requested argc o = false ->
            endian_invalid (default_value (opt_endian o) "big") = true ->
            exit_code (main argc cl pd0 w0) = -1).
  { intros o -> H1 H3. destruct (input_file_missing o) eqn:H2.
    - apply (main_no_input argc o pd0 w0 H1 H2).
    - apply (main_bad_endian argc o pd0 w0 H1 H2 H3). }
  split; [intros o -> H; apply (main_help argc o pd0 w0 H)|].
  split; [exact Hok|].
  split; [intros o -> H1 H2; apply (main_no_input argc o pd0 w0 H1 H2)|].
  split; [exact Hendian|].
  split; [exact Hfail_init|].
  split; [exact Hfail_parse|].
  split; [intros what ->; reflexivity|].
  destruct cl as [what|o]; [right; reflexivity|].
  destruct (command_line_cases argc o) as [H|[[H1 H2]|[(H1 & H2 & H3)|H]]].
  - left. apply (main_help argc o pd0 w0 H).
  - right. apply (main_no_input argc o pd0 w0 H1 H2).
  - right. apply (Hendian o eq_refl H1 H3).
  - destruct (Z.eq_dec (init_status (configured o pd0 w0)) 0) as [Hi|Hi];
      [|right; apply (Hfail_init o eq_refl H Hi)].
    destruct (Z.eq_dec (parse_status (configured o pd0 w0)) 0) as [Hp|Hp];
      [|right; apply (Hfail_parse o eq_refl H Hi Hp)].
    left. apply (Hok o eq_refl). repeat split; assumption.
Qed.

(** C3, as the code has it.  The teardown [clearParserData] runs exactly
    once, as the last step, in every run that gets past the command-line
    checks (failed initialisation, failed parse, registers only, full
    run); a run that ends in the command-line block (usage screen, missing
    input file, invalid endianness, rejected command line) returns without
    it. *)
Theorem teardown_once_past_the_command_line argc cl pd0 w0 :
  teardowns (events (main argc cl pd0 w0))
  = (if reaches_pipeline argc cl then 1%nat else 0%nat)
  /\ (reaches_pipeline argc cl = true ->
      exists t, events (main argc cl pd0 w0) = t ++ [Call_clearParserData]
                /\ teardowns t = 0%nat).
Proof.
  destruct cl as [what|o].
  { split; [reflexivity|discriminate]. }
  destruct (command_line_cases argc o) as [H|[[H1 H2]|[(H1 & H2 & H3)|H]]].
  - destruct (main_help argc o pd0 w0 H) as [_ ->].
    unfold reaches_pipeline. rewrite H. split; [reflexivity|discriminate].
  - destruct (main_no_input argc o pd0 w0 H1 H2) as [_ ->].
    unfold reaches_pipeline. rewrite H1, H2.
    split; [reflexivity|discriminate].
  - destruct (main_bad_endian argc o pd0 w0 H1 H2 H3) as [_ ->].
    unfold reaches_pipeline. rewrite H1, H2, H3.
    split; [reflexivity|discriminate].
  - rewrite H.
    destruct (Z.eq_dec (init_status (configured o pd0 w0)) 0) as [Hi|Hi].
    2:{ destruct (main_init_failure argc o pd0 w0 H Hi) as [_ ->].
        split; [reflexivity|]. intros _.
        eexists [_; _; _; _]. split; reflexivity. }
    destruct (Z.eq_dec (parse_status (configured o pd0 w0)) 0) as [Hp|Hp].
    2:{ destruct (main_parse_failure argc o pd0 w0 H Hi Hp) as [_ ->].
        split; [reflexivity|]. intros _.
        eexists [_; _; _; _; _; _]. split; reflexivity. }
    assert (Hok : parsed_ok argc o pd0 w0) by (repeat split; assumption).
    destruct (opt_print_registers_only o) eqn:Hflag.
    + destruct (main_print_registers_only argc o pd0 w0 Hok Hflag) as [_ ->].
      split; [reflexivity|]. intros _.
      eexists (parsing_events _ ++ [_; _; _]).
      rewrite <- app_assoc. split; reflexivity.
    + destruct (main_full_run argc o pd0 w0 Hok Hflag) as (_ & -> & _).
      destruct (opt_skip_instruction_combining o);
        (split; [reflexivity|]); intros _;
        eexists (parsing_events _ ++ engine_events _);
        rewrite <- app_assoc; split; reflexivity.
Qed.

(** C4.  With [--print-registers-only], a run whose command line is
    accepted and whose registers and instructions are read ends with exit
    code [0] right after that: the registers found are reported, the
    teardown runs, and no combine pass, no attach or token computation and
    no output generation takes place. *)
Theorem print_registers_only_ends_before_combining argc o pd0 w0 :
  parsed_ok argc o pd0 w0 ->
  opt_print_registers_only o = true ->
  let run := main argc (Parsed o) pd0 w0 in
  exit_code run = 0
  /\ events run
     = parsing_events (configured o pd0 w0)
       ++ [Call_getOutputRegisters;
           SayFoundRegisters
             (fst (fst (getOutputRegisters
                          (fst (parsed_store (configured o pd0 w0)))
                          (snd (parsed_store (configured o pd0 w0))))));
           Say "If there are any issues edit registers.h before proceeding.";
           Call_clearParserData]
  /\ stages (events run) = []
  /\ ~ In Call_createProcessorModule (events run).
Proof.
  intros Hok Hflag run. subst run.
  destruct (main_print_registers_only argc o pd0 w0 Hok Hflag) as [Hc He].
  rewrite He. repeat split; auto.
  cbn. intros H. repeat (destruct H as [H|H]; [discriminate|]). exact H.
Qed.

(** C5.  With [--skip-instruction-combining] (and without
    [--print-registers-only]), a run that has parsed its input calls
    [combineInstructions] not once; [computeAttachVariables],
    [computeTokenInstructions] and [createProcessorModule] run, in this
    order, on the data as [parseInstructions] left it. *)
Theorem skip_instruction_combining_bypasses_the_passes argc o pd0 w0 :
  parsed_ok argc o pd0 w0 ->
  opt_print_registers_only o = false ->
  opt_skip_instruction_combining o = true ->
  let run := main argc (Parsed o) pd0 w0 in
  combines (events run) = []
  /\ stages (events run)
     = [Call_computeAttachVariables; Call_computeTokenInstructions]
  /\ events run
     = parsing_events (configured o pd0 w0)
       ++ [Say "[*] Computing attach registers";
           Call_computeAttachVariables;
           Say "[*] Computing token instructions";
           Call_computeTokenInstructions;
           Say "[*] Generating Ghidra processor specification";
           Call_createProcessorModule;
           Say "[*] Created Processor Module Directory";
           Call_clearParserData]
  /\ (parsedData (final run), world (final run))
     = teardown_stage
         (output_stage
            (stage computeTokenInstructions
               (stage computeAttachVariables
                  (parsed_store (configured o pd0 w0))))).
Proof.
  intros Hok Hflag Hskip run. subst run.
  destruct (main_full_run argc o pd0 w0 Hok Hflag) as (_ & He & Hf).
  rewrite He, Hf, Hskip. repeat split; reflexivity.
Qed.

(** C6.  Without [--skip-instruction-combining], the calls of the engine in
    a run are either none at all (the run ended before the engine) or the
    five stages, once each, in the order duplicates, immediates,
    registers, attach, token; a run that has parsed its input and does not
    stop at the registers is of the second kind, and each stage works on
    the whole result of the stage before it. *)
Theorem stages_run_once_in_fixed_order argc o pd0 w0 :
  opt_skip_instruction_combining o = false ->
  let run := main argc (Parsed o) pd0 w0 in
  (stages (events run) = [] \/ stages (events run) = five_stages)
  /\ (parsed_ok argc o pd0 w0 -> opt_print_registers_only o = false ->
      stages (events run) = five_stages
      /\ (parsedData (final run), world (final run))
         = teardown_stage
             (output_stage
                (stage computeTokenInstructions
                   (stage computeAttachVariables
                      (stage (fun pd => combineInstructions pd COMBINE_REGISTERS)
                         (stage (fun pd => combineInstructions pd COMBINE_IMMEDIATES)
                            (stage (fun pd => combineInstructions pd COMBINE_DUPLICATES)
                               (parsed_store (configured o pd0 w0))))))))).
Proof.
  intros Hskip run. subst run.
  assert (Hfull : parsed_ok argc o pd0 w0 -> opt_print_registers_only o = false ->
            stages (events (main argc (Parsed o) pd0 w0)) = five_stages
            /\ (parsedData (final (main argc (Parsed o) pd0 w0)),
                world (final (main argc (Parsed o) pd0 w0)))
               = teardown_stage
                   (output_stage
                      (engine_stages false
                         (parsed_store (configured o pd0 w0))))).
  { intros Hok Hflag.
    destruct (main_full_run argc o pd0 w0 Hok Hflag) as (_ & He & Hf).
    rewrite He, Hf, Hskip. split; reflexivity. }
  split; [|exact Hfull].
  destruct (command_line_cases argc o) as [H|[[H1 H2]|[(H1 & H2 & H3)|H]]].
  - destruct (main_help argc o pd0 w0 H) as [_ ->]. left; reflexivity.
  - destruct (main_no_input argc o pd0 w0 H1 H2) as [_ ->]. left; reflexivity.
  - destruct (main_bad_endian argc o pd0 w0 H1 H2 H3) as [_ ->].
    left; reflexivity.
  - destruct (Z.eq_dec (init_status (configured o pd0 w0)) 0) as [Hi|Hi].
    2:{ destruct (main_init_failure argc o pd0 w0 H Hi) as [_ ->].
        left; reflexivity. }
    destruct (Z.eq_dec (parse_status (configured o pd0 w0)) 0) as [Hp|Hp].
    2:{ destruct (main_parse_failure argc o pd0 w0 H Hi Hp) as [_ ->].
        left; reflexivity. }
    assert (Hok : parsed_ok argc o pd0 w0) by (repeat split; assumption).
    destruct (opt_print_registers_only o) eqn:Hflag.
    + destruct (main_print_registers_only argc o pd0 w0 Hok Hflag) as [_ ->].
      left; reflexivity.
    + right. apply (Hfull Hok eq_refl).
Qed.

(** The status of [createProcessorModule] does not reach the exit code: a
    full run returns [0] and announces the module directory whatever the
    output side reports. *)
Lemma output_status_dropped argc o pd0 w0 :
  parsed_ok argc o pd0 w0 ->
  opt_print_registers_only o = false ->
  exit_code (main argc (Parsed o) pd0 w0) = 0
  /\ In (Say "[*] Created Processor Module Directory")
        (events (main argc (Parsed o) pd0 w0)).
Proof.
  intros Hok Hflag.
  destruct (main_full_run argc o pd0 w0 Hok Hflag) as (Hc & He & _).
  split; [exact Hc|]. rewrite He.
  apply in_or_app. right. apply in_or_app. left.
  unfold engine_events. apply in_or_app. right. cbn. auto 10.
Qed.

(** C9.  After the command line has been stored, an option that was not
    given has its default: processor name ["MyProc"], family
    ["MyProcFamily"], endianness ["big"], alignment [1], bitness [32];
    the four switches are [false]. *)
Theorem defaults_of_absent_options o pd0 w0 :
  let m := configured o pd0 w0 in
  (opt_processor_name o = None -> processorName (parsedData m) = "MyProc")
  /\ (opt_processor_family o = None ->
      processorFamily (parsedData m) = "MyProcFamily")
  /\ (opt_endian o = None -> endian (parsedData m) = "big")
  /\ (opt_alignment o = None -> alignment (parsedData m) = 1)
  /\ (opt_bitness o = None -> bitness (parsedData m) = 32)
  /\ (opt_omit_opcodes o = false -> omitOpcodes (parsedData m) = false)
  /\ (opt_omit_example_instructions o = false ->
      omitExampleInstructions (parsedData m) = false)
  /\ (opt_skip_instruction_combining o = false ->
      skipInstructionCombining m = false)
  /\ (opt_print_registers_only o = false -> printRegistersOnly m = false).
Proof.
  cbn. repeat split; intros H; rewrite H; reflexivity.
Qed.

(** C10.  When [--help] is given or there is no argument at all, the usage
    screen is printed and [main] returns [0]; nothing else is printed, so
    neither the input file nor the endianness is looked at. *)
Theorem help_takes_precedence argc o pd0 w0 :
  opt_help o = true \/ argc = 1 ->
  exit_code (main argc (Parsed o) pd0 w0) = 0
  /\ events (main argc (Parsed o) pd0 w0) = [banner; SayUsage].
Proof.
  intros H. apply main_help. unfold help_requested, count_help.
  destruct H as [->| ->]; [reflexivity|]. apply orb_true_r.
Qed.

(** *** Every run, kind by kind

    The eight ways through [main], with the exit code and the trace of
    each. *)
Lemma main_cases argc cl pd0 w0 :
  (exists what, cl = BoostError what
     /\ exit_code (main argc cl pd0 w0) = -1
     /\ events (main argc cl pd0 w0) = [banner; SayCommandLineError what])
  \/ (exists o, cl = Parsed o
       /\ help_requested argc o = true
       /\ exit_code (main argc cl pd0 w0) = 0
       /\ events (main argc cl pd0 w0) = [banner; SayUsage])
  \/ (exists o, cl = Parsed o
       /\ help_requested argc o = false /\ input_file_missing o = true
       /\ exit_code (main argc cl pd0 w0) = -1
       /\ events (main argc cl pd0 w0)
          = [banner; Say "Input file name is required!!"])
  \/ (exists o, cl = Parsed o
       /\ help_requested argc o = false /\ input_file_missing o = false
       /\ endian_invalid (default_value (opt_endian o) "big") = true
       /\ exit_code (main argc cl pd0 w0) = -1
       /\ events (main argc cl pd0 w0)
          = [banner;
             Say "Processor endianness must be either big or little!!"])
  \/ (exists o, cl = Parsed o
       /\ reaches_pipeline argc cl = true
       /\ init_status (configured o pd0 w0) <> 0
       /\ exit_code (main argc cl pd0 w0) = init_status (configured o pd0 w0)
       /\ events (main argc cl pd0 w0)
          = [banner; Say "[*] Initializing default Ghidra registers";
             Call_initRegisters (additionalRegisters (configured o pd0 w0));
             Say "[-] Failed to initialize default Ghidra registers!!";
             Call_clearParserData])
  \/ (exists o, cl = Parsed o
       /\ reaches_pipeline argc cl = true
       /\ init_status (configured o pd0 w0) = 0
       /\ parse_status (configured o pd0 w0) <> 0
       /\ exit_code (main argc cl pd0 w0) = parse_status (configured o pd0 w0)
       /\ events (main argc cl pd0 w0)
          = [banner; Say "[*] Initializing default Ghidra registers";
             Call_initRegisters (additionalRegisters (configured o pd0 w0));
             Say "[*] Parsing instructions";
             Call_parseInstructions;
             Say "[-] Failed to parse instructions";
             Call_clearParserData])
  \/ (exists o, cl = Parsed o
       /\ parsed_ok argc o pd0 w0
       /\ opt_print_registers_only o = true
       /\ exit_code (main argc cl pd0 w0) = 0
       /\ events (main argc cl pd0 w0)
          = parsing_events (configured o pd0 w0)
            ++ [Call_getOutputRegisters;
                SayFoundRegisters
                  (fst (fst (getOutputRegisters
                               (fst (parsed_store (configured o pd0 w0)))
                               (snd (parsed_store (configured o pd0 w0))))));
                Say "If there are any issues edit registers.h before proceeding.";
                Call_clearParserData])
  \/ (exists o, cl = Parsed o
       /\ parsed_ok argc o pd0 w0
       /\ opt_print_registers_only o = false
       /\ exit_code (main argc cl pd0 w0) = 0
       /\ events (main argc cl pd0 w0)
          = parsing_events (configured o pd0 w0)
            ++ engine_events (opt_skip_instruction_combining o)
            ++ [Call_clearParserData]).
Proof.
  destruct cl as [what|o].
  { left. exists what. repeat split; reflexivity. }
  right.
  destruct (command_line_cases argc o) as [H|[[H1 H2]|[(H1 & H2 & H3)|H]]].
  - left. exists o. destruct (main_help argc o pd0 w0 H). auto.
  - right. left. exists o. destruct (main_no_input argc o pd0 w0 H1 H2). auto.
  - do 2 right. left. exists o.
    destruct (main_bad_endian argc o pd0 w0 H1 H2 H3). auto 6.
  - do 3 right.
    destruct (Z.eq_dec (init_status (configured o pd0 w0)) 0) as [Hi|Hi].
    2:{ left. exists o. destruct (main_init_failure argc o pd0 w0 H Hi). auto. }
    right.
    destruct (Z.eq_dec (parse_status (configured o pd0 w0)) 0) as [Hp|Hp].
    2:{ left. exists o.
        destruct (main_parse_failure argc o pd0 w0 H Hi Hp). auto 6. }
    right.
    assert (Hok : parsed_ok argc o pd0 w0) by (repeat split; assumption).
    destruct (opt_print_registers_only o) eqn:Hflag.
    + left. exists o.
      destruct (main_print_registers_only argc o pd0 w0 Hok Hflag). auto.
    + right. exists o.
      destruct (main_full_run argc o pd0 w0 Hok Hflag) as (Hc & He & _). auto.
Qed.

(** The exit code as a function of the tests [main] makes. *)
Lemma exit_code_closed_form argc o pd0 w0 :
  exit_code (main argc (Parsed o) pd0 w0)
  = if help_requested argc o then 0
    else if input_file_missing o then -1
    else if endian_invalid (default_value (opt_endian o) "big") then -1
    else if init_status (configured o pd0 w0) =? 0
         then parse_status (configured o pd0 w0)
         else init_status (configured o pd0 w0).
Proof.
  destruct (command_line_cases argc o) as [H|[[H1 H2]|[(H1 & H2 & H3)|H]]].
  - rewrite H. apply (main_help argc o pd0 w0 H).
  - rewrite H1, H2. apply (main_no_input argc o pd0 w0 H1 H2).
  - rewrite H1, H2, H3. apply (main_bad_endian argc o pd0 w0 H1 H2 H3).
  - destruct (reaches_pipeline_inv argc o H) as (H1 & H2 & H3).
    rewrite H1, H2, H3.
    destruct (Z.eq_dec (init_status (configured o pd0 w0)) 0) as [Hi|Hi].
    2:{ rewrite (proj2 (Z.eqb_neq _ _) Hi).
        apply (main_init_failure argc o pd0 w0 H Hi). }
    rewrite (proj2 (Z.eqb_eq _ _) Hi).
    destruct (Z.eq_dec (parse_status (configured o pd0 w0)) 0) as [Hp|Hp].
    2:{ apply (main_parse_failure argc o pd0 w0 H Hi Hp). }
    rewrite Hp.
    assert (Hok : parsed_ok argc o pd0 w0) by (repeat split; assumption).
    destruct (opt_print_registers_only o) eqn:Hflag.
    + apply (main_print_registers_only argc o pd0 w0 Hok Hflag).
    + apply (main_full_run argc o pd0 w0 Hok Hflag).
Qed.

(** *** Further properties of the driver *)

(** Discharge [In e t] for an event that is not in the explicit trace [t]. *)
Ltac absent H :=
  solve [ unfold parsing_events, engine_events in H; cbn [app In] in H;
          repeat (destruct H as [H|H]; [discriminate H|]); destruct H ].

(** X1.  The calls that leave [main], in every run: none when the command
    line does not pass the checks; otherwise [initRegisters] first, with
    the additional registers of the command line (none when the option is
    absent), then [parseInstructions] if that succeeded, then either
    [getOutputRegisters] alone or the engine and the output, and
    [clearParserData] last. *)
Theorem routine_calls_of_every_run argc cl pd0 w0 :
  (reaches_pipeline argc cl = false
   /\ calls (events (main argc cl pd0 w0)) = [])
  \/ (exists o, cl = Parsed o
       /\ reaches_pipeline argc cl = true
       /\ ((init_status (configured o pd0 w0) <> 0
            /\ calls (events (main argc cl pd0 w0))
               = [Call_initRegisters
                    (match opt_additional_registers o with
                     | Some given => given
                     | None => []
                     end);
                  Call_clearParserData])
           \/ (init_status (configured o pd0 w0) = 0
               /\ parse_status (configured o pd0 w0) <> 0
               /\ calls (events (main argc cl pd0 w0))
                  = [Call_initRegisters
                       (match opt_additional_registers o with
                        | Some given => given
                        | None => []
                        end);
                     Call_parseInstructions;
                     Call_clearParserData])
           \/ (parsed_ok argc o pd0 w0
               /\ opt_print_registers_only o = true
               /\ calls (events (main argc cl pd0 w0))
                  = [Call_initRegisters
                       (match opt_additional_registers o with
                        | Some given => given
                        | None => []
                        end);
                     Call_parseInstructions;
                     Call_getOutputRegisters;
                     Call_clearParserData])
           \/ (parsed_ok argc o pd0 w0
               /\ opt_print_registers_only o = false
               /\ calls (events (main argc cl pd0 w0))
                  = [Call_initRegisters
                       (match opt_additional_registers o with
                        | Some given => given
                        | None => []
                        end);
                     Call_parseInstructions]
                    ++ (if opt_skip_instruction_combining o then []
                        else [Call_combineInstructions COMBINE_DUPLICATES;
                              Call_combineInstructions COMBINE_IMMEDIATES;
                              Call_combineInstructions COMBINE_REGISTERS])
                    ++ [Call_computeAttachVariables;
                        Call_computeTokenInstructions;
                        Call_createProcessorModule;
                        Call_clearParserData]))).
Proof.
  destruct (main_cases argc cl pd0 w0)
    as [(what & -> & _ & He)
       |[(o & -> & Hh & _ & He)
       |[(o & -> & Hh & Hm & _ & He)
       |[(o & -> & Hh & Hm & Hb & _ & He)
       |[(o & -> & Hr & Hi & _ & He)
       |[(o & -> & Hr & Hi & Hp & _ & He)
       |[(o & -> & Hok & Hflag & _ & He)
       |(o & -> & Hok & Hflag & _ & He)]]]]]]]; rewrite He.
  - left. split; reflexivity.
  - left. unfold reaches_pipeline. rewrite Hh. split; reflexivity.
  - left. unfold reaches_pipeline. rewrite Hh, Hm. split; reflexivity.
  - left. unfold reaches_pipeline. rewrite Hh, Hm, Hb. split; reflexivity.
  - right. exists o. split; [reflexivity|]. split; [exact Hr|].
    left. split; [exact Hi|reflexivity].
  - right. exists o. split; [reflexivity|]. split; [exact Hr|].
    right. left. split; [exact Hi|]. split; [exact Hp|reflexivity].
  - right. exists o. split; [reflexivity|]. split; [apply Hok|].
    do 2 right. left. split; [exact Hok|]. split; [exact Hflag|reflexivity].
  - right. exists o. split; [reflexivity|]. split; [apply Hok|].
    do 3 right. split; [exact Hok|]. split; [exact Hflag|].
    destruct (opt_skip_instruction_combining o); reflexivity.
Qed.

(** X2.  [createProcessorModule] is called exactly in the runs whose command
    line is accepted, whose registers and instructions are read, and that
    are not asked for the registers only; in particular a run that returns
    a non-zero code has not called it. *)
Theorem output_generated_iff argc cl pd0 w0 :
  (In Call_createProcessorModule (events (main argc cl pd0 w0))
   <-> exists o, cl = Parsed o /\ parsed_ok argc o pd0 w0
                 /\ opt_print_registers_only o = false)
  /\ (exit_code (main argc cl pd0 w0) <> 0 ->
      ~ In Call_createProcessorModule (events (main argc cl pd0 w0))).
Proof.
  assert (Hiff : In Call_createProcessorModule (events (main argc cl pd0 w0))
                 <-> exists o, cl = Parsed o /\ parsed_ok argc o pd0 w0
                               /\ opt_print_registers_only o = false).
  { split.
    - destruct (main_cases argc cl pd0 w0)
        as [(what & -> & _ & He)
           |[(o & -> & Hh & _ & He)
           |[(o & -> & Hh & Hm & _ & He)
           |[(o & -> & Hh & Hm & Hb & _ & He)
           |[(o & -> & Hr & Hi & _ & He)
           |[(o & -> & Hr & Hi & Hp & _ & He)
           |[(o & -> & Hok & Hflag & _ & He)
           |(o & -> & Hok & Hflag & _ & He)]]]]]]]; rewrite He; intros H;
        try (absent H).
      exists o. auto.
    - intros (o & -> & Hok & Hflag).
      destruct (main_full_run argc o pd0 w0 Hok Hflag) as (_ & He & _).
      rewrite He. apply in_or_app. right. apply in_or_app. left.
      unfold engine_events. apply in_or_app. right. cbn. auto 10. }
  split; [exact Hiff|].
  intros Hcode H. apply Hiff in H. destruct H as (o & -> & Hok & Hflag).
  apply Hcode. apply (main_full_run argc o pd0 w0 Hok Hflag).
Qed.

(** X3.  [main] returns [0] exactly when the usage screen was asked for or
    the command line was accepted and both [initRegisters] and
    [parseInstructions] returned [0]. *)
Theorem exit_code_zero_iff argc cl pd0 w0 :
  exit_code (main argc cl pd0 w0) = 0
  <-> exists o, cl = Parsed o
                /\ (help_requested argc o = true \/ parsed_ok argc o pd0 w0).
Proof.
  split.
  - destruct (main_cases argc cl pd0 w0)
      as [(what & -> & Hc & _)
         |[(o & -> & Hh & Hc & _)
         |[(o & -> & Hh & Hm & Hc & _)
         |[(o & -> & Hh & Hm & Hb & Hc & _)
         |[(o & -> & Hr & Hi & Hc & _)
         |[(o & -> & Hr & Hi & Hp & Hc & _)
         |[(o & -> & Hok & Hflag & Hc & _)
         |(o & -> & Hok & Hflag & Hc & _)]]]]]]]; rewrite Hc; intros H;
      try discriminate H; try contradiction; exists o; auto.
  - intros (o & -> & [H|Hok]).
    + apply (main_help argc o pd0 w0 H).
    + destruct (opt_print_registers_only o) eqn:Hflag.
      * apply (main_print_registers_only argc o pd0 w0 Hok Hflag).
      * apply (main_full_run argc o pd0 w0 Hok Hflag).
Qed.

(** The members of [parsedData] that [notify] writes do not reach the
    configured state. *)
Lemma configured_overwrites o pd0 pd1 w0 :
  inputFilename pd0 = inputFilename pd1 ->
  allInstructions pd0 = allInstructions pd1 ->
  engine pd0 = engine pd1 ->
  configured o pd0 w0 = configured o pd1 w0.
Proof.
  destruct pd0, pd1. cbn. intros -> -> ->. reflexivity.
Qed.

(** X4.  What [parsedData] holds at entry in the members that [main]
    overwrites (processor name and family, endianness, alignment, bitness,
    the two omit flags, maxOpcodeBits) has no influence: two runs that
    differ only there have the same exit code and the same trace, and once
    the command line is accepted they are the same run. *)
Theorem overwritten_members_never_observed argc cl pd0 pd1 w0 :
  inputFilename pd0 = inputFilename pd1 ->
  allInstructions pd0 = allInstructions pd1 ->
  engine pd0 = engine pd1 ->
  exit_code (main argc cl pd0 w0) = exit_code (main argc cl pd1 w0)
  /\ events (main argc cl pd0 w0) = events (main argc cl pd1 w0)
  /\ (reaches_pipeline argc cl = true ->
      main argc cl pd0 w0 = main argc cl pd1 w0).
Proof.
  intros H1 H2 H3.
  assert (Hreach : reaches_pipeline argc cl = true ->
            main argc cl pd0 w0 = main argc cl pd1 w0).
  { destruct cl as [what|o]; [discriminate|]. intros H.
    unfold main. rewrite !(main_body_accepted argc o _ w0 H).
    rewrite (configured_overwrites o pd0 pd1 w0 H1 H2 H3). reflexivity. }
  destruct cl as [what|o].
  { split; [reflexivity|]. split; [reflexivity|discriminate]. }
  destruct (command_line_cases argc o) as [H|[[Ha Hb]|[(Ha & Hb & Hc)|H]]].
  - destruct (main_help argc o pd0 w0 H) as [-> ->].
    destruct (main_help argc o pd1 w0 H) as [-> ->]. auto.
  - destruct (main_no_input argc o pd0 w0 Ha Hb) as [-> ->].
    destruct (main_no_input argc o pd1 w0 Ha Hb) as [-> ->]. auto.
  - destruct (main_bad_endian argc o pd0 w0 Ha Hb Hc) as [-> ->].
    destruct (main_bad_endian argc o pd1 w0 Ha Hb Hc) as [-> ->]. auto.
  - rewrite (Hreach H). auto.
Qed.

(** X5.  Between two command lines that both have at least one argument
    ([argc] and [argc'] are not 1; they differ when a switch is added or
    removed) and that differ only in the two debugging switches,
    [--print-registers-only] and [--skip-instruction-combining], the exit
    code is the same.  The command line without arguments is left out: it
    shows the usage screen and returns 0 whatever the other one returns. *)
Theorem debugging_switches_keep_exit_code argc argc' o printRegisters
    skipCombining pd0 w0 :
  argc <> 1 -> argc' <> 1 ->
  exit_code (main argc' (Parsed (with_switches o printRegisters skipCombining))
                  pd0 w0)
  = exit_code (main argc (Parsed o) pd0 w0).
Proof.
  intros Ha Ha'. rewrite !exit_code_closed_form. unfold help_requested.
  apply Z.eqb_neq in Ha, Ha'. rewrite Ha, Ha'. reflexivity.
Qed.

(** X6.  No failure is silent and no success is noisy: a run that returns a
    non-zero code has printed exactly one of the five failure lines, a run
    that returns [0] none. *)
Theorem one_error_line_per_failure argc cl pd0 w0 :
  List.length (error_lines (events (main argc cl pd0 w0)))
  = if exit_code (main argc cl pd0 w0) =? 0 then 0%nat else 1%nat.
Proof.
  destruct (main_cases argc cl pd0 w0)
    as [(what & -> & Hc & He)
       |[(o & -> & Hh & Hc & He)
       |[(o & -> & Hh & Hm & Hc & He)
       |[(o & -> & Hh & Hm & Hb & Hc & He)
       |[(o & -> & Hr & Hi & Hc & He)
       |[(o & -> & Hr & Hi & Hp & Hc & He)
       |[(o & -> & Hok & Hflag & Hc & He)
       |(o & -> & Hok & Hflag & Hc & He)]]]]]]]; rewrite Hc, He;
    try reflexivity.
  - rewrite (proj2 (Z.eqb_neq _ _) Hi). reflexivity.
  - rewrite (proj2 (Z.eqb_neq _ _) Hp). reflexivity.
  - destruct (opt_skip_instruction_combining o); reflexivity.
Qed.

(** [--help] or no argument makes the first test of [main] succeed. *)
Lemma help_takes_precedence_request argc o :
  opt_help o = true \/ argc = 1 -> help_requested argc o = true.
Proof.
  unfold help_requested, count_help.
  intros [->| ->]; [reflexivity|]. apply orb_true_r.
Qed.

(** X7.  The usage screen is printed only on request: it is in the trace
    exactly when the library accepted the command line and [--help] was
    given or there was no argument; no failure prints it. *)
Theorem usage_only_on_request argc cl pd0 w0 :
  In SayUsage (events (main argc cl pd0 w0))
  <-> exists o, cl = Parsed o /\ (opt_help o = true \/ argc = 1).
Proof.
  split.
  - destruct (main_cases argc cl pd0 w0)
      as [(what & -> & _ & He)
         |[(o & -> & Hh & _ & He)
         |[(o & -> & Hh & Hm & _ & He)
         |[(o & -> & Hh & Hm & Hb & _ & He)
         |[(o & -> & Hr & Hi & _ & He)
         |[(o & -> & Hr & Hi & Hp & _ & He)
         |[(o & -> & Hok & Hflag & _ & He)
         |(o & -> & Hok & Hflag & _ & He)]]]]]]]; rewrite He; intros H;
      try (absent H);
      try (destruct (opt_skip_instruction_combining o); absent H).
    exists o. split; [reflexivity|].
    unfold help_requested, count_help in Hh.
    apply orb_prop in Hh. destruct Hh as [Hh|Hh].
    + left. destruct (opt_help o); [reflexivity|discriminate].
    + right. apply Z.eqb_eq. exact Hh.
  - intros (o & -> & H).
    pose proof (help_takes_precedence_request argc o H) as Hh.
    destruct (main_help argc o pd0 w0 Hh) as [_ ->]. right. left. reflexivity.
Qed.

(** The state in which the registers-only run jumps to [CLEANUP]. *)
Lemma pipeline_print_registers_only_store m :
  init_status m = 0 ->
  parse_status m = 0 ->
  printRegistersOnly m = true ->
  exists m',
    pipeline m = GotoCleanup m'
    /\ (parsedData m', world m') = registers_stage (parsed_store m).
Proof.
  intros Hi Hp Hflag. apply Z.eqb_eq in Hi, Hp.
  destruct m as [pd ar sic pro res w tr].
  unfold registers_stage, parsed_store, parse_status, parse_outcome,
    init_status, init_outcome in *.
  unfold_stmts. rewrite Hi. project. rewrite Hp. project.
  rewrite Hflag. eexists. split; reflexivity.
Qed.

(** X8.  The number of parsed instructions is reported exactly in the runs
    whose command line is accepted and whose registers and instructions are
    read, and the number reported is the length of [allInstructions] as
    [parseInstructions] left it. *)
Theorem instruction_count_reported_iff argc cl pd0 w0 n :
  In (SayParsed n) (events (main argc cl pd0 w0))
  <-> exists o, cl = Parsed o /\ parsed_ok argc o pd0 w0
                /\ n = List.length
                         (allInstructions
                            (fst (parsed_store (configured o pd0 w0)))).
Proof.
  split.
  - destruct (main_cases argc cl pd0 w0)
      as [(what & -> & _ & He)
         |[(o & -> & Hh & _ & He)
         |[(o & -> & Hh & Hm & _ & He)
         |[(o & -> & Hh & Hm & Hb & _ & He)
         |[(o & -> & Hr & Hi & _ & He)
         |[(o & -> & Hr & Hi & Hp & _ & He)
         |[(o & -> & Hok & Hflag & _ & He)
         |(o & -> & Hok & Hflag & _ & He)]]]]]]]; rewrite He; intros H;
      try (absent H);
      try (destruct (opt_skip_instruction_combining o));
      unfold parsing_events, engine_events in H; cbn [app In] in H;
      repeat (destruct H as [H|H];
              [first [discriminate H
                     |injection H as <-; exists o; auto]|]);
      destruct H.
  - intros (o & -> & Hok & ->).
    destruct (opt_print_registers_only o) eqn:Hflag.
    + destruct (main_print_registers_only argc o pd0 w0 Hok Hflag) as [_ ->].
      apply in_or_app. left. unfold parsing_events. cbn. auto 10.
    + destruct (main_full_run argc o pd0 w0 Hok Hflag) as (_ & -> & _).
      apply in_or_app. left. unfold parsing_events. cbn. auto 10.
Qed.

(** X9.  On the three short paths to [CLEANUP], [clearParserData] is given
    the data and the world exactly as the last routine left them: after a
    failed [initRegisters] the configured data, after a failed
    [parseInstructions] what it left, in a registers-only run what
    [getOutputRegisters] left. *)
Theorem teardown_receives_last_store argc o pd0 w0 :
  reaches_pipeline argc (Parsed o) = true ->
  let run := main argc (Parsed o) pd0 w0 in
  let m := configured o pd0 w0 in
  (init_status m <> 0 ->
   (parsedData (final run), world (final run))
   = teardown_stage (parsedData m, snd (init_outcome m)))
  /\ (init_status m = 0 -> parse_status m <> 0 ->
      (parsedData (final run), world (final run))
      = teardown_stage (parsed_store m))
  /\ (init_status m = 0 -> parse_status m = 0 ->
      opt_print_registers_only o = true ->
      (parsedData (final run), world (final run))
      = teardown_stage (registers_stage (parsed_store m))).
Proof.
  intros H run m. subst run m.
  pose proof (main_body_accepted argc o pd0 w0 H) as E.
  split; [|split].
  - intros Hi. rewrite (pipeline_init_failure _ Hi) in E.
    destruct (main_of_cleanup _ _ _ _ _ (or_introl E)) as (_ & _ & ->).
    reflexivity.
  - intros Hi Hp. rewrite (pipeline_parse_failure _ Hi Hp) in E.
    destruct (main_of_cleanup _ _ _ _ _ (or_introl E)) as (_ & _ & ->).
    reflexivity.
  - intros Hi Hp Hflag.
    destruct (pipeline_print_registers_only_store _ Hi Hp Hflag)
      as (m' & Em & Hs).
    rewrite Em in E.
    destruct (main_of_cleanup _ _ _ _ _ (or_introl E)) as (_ & _ & ->).
    rewrite Hs. reflexivity.
Qed.

(** X10.  A run that ends in the command-line block (rejected command line,
    usage screen, missing input file, invalid endianness) leaves the world
    as it found it. *)
Theorem rejected_run_leaves_world argc cl pd0 w0 :
  reaches_pipeline argc cl = false ->
  world (final (main argc cl pd0 w0)) = w0.
Proof.
  destruct cl as [what|o]; [reflexivity|].
  intros H. unfold reaches_pipeline in H.
  unfold main, entry. destruct pd0. unfold_stmts.
  destruct (help_requested argc o); [reflexivity|].
  destruct (input_file_missing o); [reflexivity|].
  cbn [endian] in *.
  destruct (endian_invalid (default_value (opt_endian o) "big"));
    [reflexivity|discriminate H].
Qed.


End DriverFacts.

(** * Properties of the combining engine *)

Section DuplicateFacts.

Import Combiner.
Local Open Scope nat_scope.

Implicit Types (e k : InstructionEntry) (l out acc : list InstructionEntry).

(** An entry with a new key goes to the end. *)
Lemma absorb_into_fresh e out :
  ~ In (key e) (map key out) -> absorb_into e out = out ++ [e].
Proof.
  induction out as [|k out IH]; intros H; cbn; [reflexivity|].
  destruct (key_eq_dec (key k) (key e)) as [E|E].
  - exfalso. apply H. left. exact E.
  - rewrite IH; [reflexivity|]. intros Hin. apply H. right. exact Hin.
Qed.

(** An entry with a known key leaves the keys as they are. *)
Lemma keys_absorb_into_known e out :
  In (key e) (map key out) -> map key (absorb_into e out) = map key out.
Proof.
  induction out as [|k out IH]; intros H; cbn; [destruct H|].
  destruct (key_eq_dec (key k) (key e)) as [E|E]; cbn.
  - reflexivity.
  - destruct H as [H|H]; [contradiction|]. rewrite IH; auto.
Qed.

Lemma NoDup_keys_absorb_into e out :
  NoDup (map key out) -> NoDup (map key (absorb_into e out)).
Proof.
  intros H. destruct (in_dec key_eq_dec (key e) (map key out)) as [Hin|Hin].
  - rewrite keys_absorb_into_known; assumption.
  - rewrite absorb_into_fresh by assumption.
    rewrite map_app. cbn. apply NoDup_app; auto.
    + constructor; [intros []|constructor].
    + intros x Hx [<-|[]]. contradiction.
Qed.

Lemma NoDup_keys_fold l acc :
  NoDup (map key acc) ->
  NoDup (map key (fold_left (fun out e => absorb_into e out) l acc)).
Proof.
  revert acc. induction l as [|e l IH]; intros acc H; cbn; [exact H|].
  apply IH. apply NoDup_keys_absorb_into. exact H.
Qed.

(** On entries with pairwise different keys the pass changes nothing. *)
Lemma fold_distinct_keys l acc :
  NoDup (map key (acc ++ l)) ->
  fold_left (fun out e => absorb_into e out) l acc = acc ++ l.
Proof.
  revert acc. induction l as [|e l IH]; intros acc H; cbn.
  - rewrite app_nil_r. reflexivity.
  - rewrite absorb_into_fresh.
    + rewrite IH; rewrite <- app_assoc; [reflexivity|exact H].
    + rewrite map_app in H. cbn in H.
      apply NoDup_remove_2 in H. intros Hin. apply H.
      apply in_or_app. left. exact Hin.
Qed.

Lemma DuplicateCombiner_keys_distinct l :
  NoDup (map key (DuplicateCombiner l)).
Proof. apply NoDup_keys_fold. constructor. Qed.

(** C7.  The duplicate-combining pass is idempotent: applied to its own
    output it returns that output unchanged, for every instruction list. *)
Theorem DuplicateCombiner_idempotent l :
  DuplicateCombiner (DuplicateCombiner l) = DuplicateCombiner l.
Proof.
  unfold DuplicateCombiner at 1.
  apply (fold_distinct_keys (DuplicateCombiner l) []).
  apply DuplicateCombiner_keys_distinct.
Qed.

End DuplicateFacts.

Section CoverFacts.

Import Combiner.
Local Open Scope nat_scope.

Implicit Types (e f m : InstructionEntry) (l out : list InstructionEntry).
Implicit Types (p : BitPattern) (r : BitRange) (g : Group).
Implicit Types (groups : list AttachGroup) (v : list bool).
Implicit Types (vals : list (list bool)).

(** *** Lists by position *)

Lemma nth_error_imap_from {A B} (fn : nat -> A -> B) (l : list A) i j :
  nth_error (imap_from i fn l) j = option_map (fn (i + j)) (nth_error l j).
Proof.
  revert i j. induction l as [|a l IH]; intros i j.
  - destruct j; reflexivity.
  - destruct j as [|j]; cbn.
    + rewrite Nat.add_0_r. reflexivity.
    + rewrite IH. rewrite Nat.add_succ_r. reflexivity.
Qed.

Lemma nth_error_imap {A B} (fn : nat -> A -> B) (l : list A) j :
  nth_error (imap fn l) j = option_map (fn j) (nth_error l j).
Proof. apply (nth_error_imap_from fn l 0 j). Qed.

Lemma collect_Some {A} (l : list (option A)) (res : list A) :
  collect l = Some res -> l = map Some res.
Proof.
  revert res. induction l as [|[a|] l IH]; intros res H; cbn in H.
  - injection H as <-. reflexivity.
  - destruct (collect l) as [res'|]; [|discriminate].
    injection H as <-. cbn. rewrite (IH res' eq_refl). reflexivity.
  - discriminate.
Qed.

Lemma collect_map_nth {A B} (fn : A -> option B) (l : list A) res i a :
  collect (map fn l) = Some res ->
  nth_error l i = Some a ->
  exists b, fn a = Some b /\ nth_error res i = Some b.
Proof.
  intros H Ha. apply collect_Some in H.
  assert (E : nth_error (map fn l) i = nth_error (map Some res) i)
    by (rewrite H; reflexivity).
  rewrite !nth_error_map, Ha in E. cbn in E.
  destruct (nth_error res i) as [b|]; [|discriminate].
  exists b. cbn in E. injection E as E. auto.
Qed.

Lemma collect_map_length {A B} (fn : A -> option B) (l : list A) res :
  collect (map fn l) = Some res -> List.length res = List.length l.
Proof.
  intros H. apply collect_Some in H.
  apply (f_equal (@List.length _)) in H. rewrite !length_map in H. auto.
Qed.

(** *** Values on a range *)

Lemma in_range_spec r i :
  in_range r i = true <-> firstBit r <= i < firstBit r + bitWidth r.
Proof.
  unfold in_range. rewrite andb_true_iff, Nat.leb_le, Nat.ltb_lt. tauto.
Qed.

Lemma value_on_length r p v :
  value_on r p = Some v -> List.length v = bitWidth r.
Proof.
  intros H. apply collect_map_length in H. rewrite length_seq in H. exact H.
Qed.

Lemma value_on_bit r p v i :
  value_on r p = Some v ->
  in_range r i = true ->
  exists b, nth_error p i = Some (Literal b)
            /\ nth_error v (i - firstBit r) = Some b.
Proof.
  intros H Hi. apply in_range_spec in Hi.
  destruct (collect_map_nth (bit_at p) _ v (i - firstBit r) i H) as (b & Hb & Hv).
  - rewrite nth_error_seq.
    destruct (Nat.ltb_spec (i - firstBit r) (bitWidth r)); [|lia].
    f_equal. lia.
  - exists b. split; [|exact Hv]. unfold bit_at in Hb.
    destruct (nth_error p i) as [[b'|]|]; try discriminate.
    injection Hb as ->. reflexivity.
Qed.

(** Two patterns with the same mask agree outside the range and have the
    same length. *)
Lemma mask_outside r p p' i :
  mask r p = mask r p' ->
  in_range r i = false ->
  nth_error p i = nth_error p' i.
Proof.
  intros H Hi.
  assert (E : nth_error (mask r p) i = nth_error (mask r p') i)
    by (rewrite H; reflexivity).
  unfold mask in E. rewrite !nth_error_imap, Hi in E.
  destruct (nth_error p i), (nth_error p' i); cbn in E; congruence.
Qed.

Lemma mask_defined r p p' i :
  mask r p = mask r p' ->
  nth_error p i = None -> nth_error p' i = None.
Proof.
  intros H Hn.
  assert (E : nth_error (mask r p) i = nth_error (mask r p') i)
    by (rewrite H; reflexivity).
  unfold mask in E. rewrite !nth_error_imap, Hn in E.
  destruct (nth_error p' i); [discriminate|reflexivity].
Qed.

(** *** Attach groups that only grow *)

Lemma find_group_app gid groups more ag :
  find_group gid groups = Some ag ->
  find_group gid (groups ++ more) = Some ag.
Proof.
  unfold find_group. induction groups as [|a groups IH]; cbn; [discriminate|].
  destruct (groupId a =? gid); auto.
Qed.

Lemma legal_value_app groups more fld v :
  legal_value groups fld v = true ->
  legal_value (groups ++ more) fld v = true.
Proof.
  destruct fld as [|r s|r gid]; cbn; auto.
  intros H. apply andb_prop in H. destruct H as [H1 H2].
  rewrite H1. cbn.
  destruct (find_group gid groups) as [ag|] eqn:E; [|discriminate].
  rewrite (find_group_app _ _ more _ E). exact H2.
Qed.

Lemma covers_app groups more e p :
  covers groups e p -> covers (groups ++ more) e p.
Proof.
  intros (vals & Hl & Hs). exists vals. split; [|exact Hs].
  eapply Forall2_impl; [|exact Hl].
  intros a b. apply legal_value_app.
Qed.

Lemma find_group_last gid groups ag :
  (forall a, In a groups -> groupId a <> gid) ->
  groupId ag = gid ->
  find_group gid (groups ++ [ag]) = Some ag.
Proof.
  intros Hne Hid. unfold find_group.
  induction groups as [|a groups IH]; cbn.
  - rewrite Hid, Nat.eqb_refl. reflexivity.
  - destruct (Nat.eqb_spec (groupId a) gid) as [E|E].
    + exfalso. apply (Hne a); [left; reflexivity|exact E].
    + apply IH. intros a' Ha'. apply Hne. right. exact Ha'.
Qed.

Lemma find_group_fresh groups ag :
  groupId ag = fresh_group_id groups ->
  find_group (fresh_group_id groups) (groups ++ [ag]) = Some ag.
Proof.
  intros Hid. apply find_group_last; [|exact Hid].
  intros a Ha. unfold fresh_group_id.
  assert (groupId a <= list_max (map groupId groups)); [|lia].
  pose proof (list_max_le (map groupId groups)
                (list_max (map groupId groups))) as [Hle _].
  specialize (Hle (Nat.le_refl _)).
  rewrite Forall_forall in Hle. apply Hle. apply in_map. exact Ha.
Qed.

(** *** A group member under the combined entry *)

Lemma substitute_symbol_app fields vals nf v i s :
  bound_symbol fields s = true ->
  List.length vals = List.length fields ->
  substitute_symbol (fields ++ [nf]) (vals ++ [v]) i s
  = substitute_symbol fields vals i s.
Proof.
  destruct s as [b|id]; cbn; [reflexivity|].
  intros Hb Hlen. apply Nat.ltb_lt in Hb.
  rewrite !nth_error_app1 by lia. reflexivity.
Qed.

Lemma well_formed_nth e i s :
  well_formed e = true ->
  nth_error (bitPattern e) i = Some s ->
  bound_symbol (operandFields e) s = true.
Proof.
  unfold well_formed. rewrite forallb_forall. intros H Hs.
  apply H. eapply nth_error_In. exact Hs.
Qed.

(** What the first member of a group stands for after the merge is all a
    member stood for before: the values of its fields, and its own value
    on the range for the new field. *)
Lemma generalize_covers groups groups' g r nf e v p :
  well_formed (fst g) = true ->
  operandFields e = operandFields (fst g) ->
  mask r (bitPattern e) = mask r (bitPattern (fst g)) ->
  value_on r (bitPattern e) = Some v ->
  field_range nf = Some r ->
  legal_value groups' nf v = true ->
  (forall fld w, legal_value groups fld w = true ->
                 legal_value groups' fld w = true) ->
  covers groups e p ->
  covers groups' (generalize g r nf) p.
Proof.
  intros Hwf Hfields Hmask Hv Hr Hnf Hmono (vals & Hl & Hs).
  rewrite Hfields in Hl.
  pose proof (Forall2_length Hl) as Hlen.
  exists (vals ++ [v]). split.
  - cbn. apply Forall2_app.
    + eapply Forall2_impl; [|exact Hl]. intros a b. apply Hmono.
    + constructor; [exact Hnf|constructor].
  - rewrite <- Hs. unfold substitute, generalize, bind_range.
    cbn [operandFields bitPattern].
    apply nth_error_ext. intros j. rewrite !nth_error_imap.
    rewrite Hfields.
    destruct (in_range r j) eqn:Hj.
    + destruct (value_on_bit r _ v j Hv Hj) as (b & Hb & Hvb).
      rewrite Hb.
      destruct (nth_error (bitPattern (fst g)) j) as [s|] eqn:Hf.
      2:{ rewrite (mask_defined r _ _ j (eq_sym Hmask) Hf) in Hb.
          discriminate. }
      cbn.
      rewrite nth_error_app2 by lia. rewrite Nat.sub_diag. cbn.
      rewrite nth_error_app2 by lia. rewrite Hlen, Nat.sub_diag. cbn.
      rewrite Hr, Hvb. reflexivity.
    + rewrite (mask_outside r _ _ j Hmask Hj).
      destruct (nth_error (bitPattern (fst g)) j) as [s|] eqn:Hf;
        [|reflexivity].
      cbn. f_equal.
      apply substitute_symbol_app; [|lia].
      eapply well_formed_nth; eassumption.
Qed.

Lemma bound_symbol_app fields nf s :
  bound_symbol fields s = true -> bound_symbol (fields ++ [nf]) s = true.
Proof.
  destruct s as [b|id]; unfold bound_symbol; [reflexivity|].
  rewrite !Nat.ltb_lt, length_app. cbn. lia.
Qed.

Lemma generalize_well_formed g r nf :
  well_formed (fst g) = true ->
  well_formed (generalize g r nf) = true.
Proof.
  intros Hwf. unfold well_formed, generalize, bind_range.
  cbn [operandFields bitPattern].
  apply forallb_forall. intros s Hs.
  apply In_nth_error in Hs. destruct Hs as (j & Hj).
  rewrite nth_error_imap in Hj.
  destruct (nth_error (bitPattern (fst g)) j) as [s'|] eqn:Hf;
    [|discriminate].
  cbn in Hj. injection Hj as <-.
  destruct (in_range r j).
  - unfold bound_symbol. rewrite Nat.ltb_lt, length_app. cbn. lia.
  - apply bound_symbol_app. eapply well_formed_nth; eassumption.
Qed.

(** *** Grouping loses no entry and mixes no keys *)

Lemma add_to_groups_new r e gs :
  exists g', In g' (add_to_groups r e gs) /\ In e (members g').
Proof.
  induction gs as [|g gs IH]; cbn.
  - exists (e, []). split; left; reflexivity.
  - destruct (group_key_eq_dec _ _) as [E|E].
    + exists (fst g, snd g ++ [e]). split; [left; reflexivity|].
      right. apply in_or_app. right. left. reflexivity.
    + destruct IH as (g' & Hg' & He). exists g'. split; [right|]; assumption.
Qed.

Lemma add_to_groups_old r e gs g x :
  In g gs -> In x (members g) ->
  exists g', In g' (add_to_groups r e gs) /\ In x (members g').
Proof.
  induction gs as [|g0 gs IH]; intros Hg Hx; [destruct Hg|]. cbn.
  destruct Hg as [->|Hg].
  - destruct (group_key_eq_dec _ _) as [E|E].
    + exists (fst g, snd g ++ [e]). split; [left; reflexivity|].
      destruct Hx as [Hx|Hx]; [left; exact Hx|].
      right. apply in_or_app. left. exact Hx.
    + exists g. split; [left; reflexivity|exact Hx].
  - destruct (group_key_eq_dec _ _) as [E|E].
    + exists g. split; [right; exact Hg|exact Hx].
    + destruct (IH Hg Hx) as (g' & Hg' & Hx').
      exists g'. split; [right|]; assumption.
Qed.

Lemma add_to_groups_origin r e gs g' x :
  In g' (add_to_groups r e gs) -> In x (members g') ->
  x = e \/ exists g, In g gs /\ In x (members g).
Proof.
  induction gs as [|g0 gs IH]; cbn; intros Hg Hx.
  - destruct Hg as [<-|[]]. destruct Hx as [<-|[]]. left; reflexivity.
  - destruct (group_key_eq_dec _ _) as [E|E].
    + destruct Hg as [<-|Hg].
      * destruct Hx as [Hx|Hx].
        -- right. exists g0. split; [left; reflexivity|left; exact Hx].
        -- cbn in Hx. apply in_app_or in Hx. destruct Hx as [Hx|[<-|[]]].
           ++ right. exists g0. split; [left; reflexivity|right; exact Hx].
           ++ left; reflexivity.
      * right. exists g'. split; [right; exact Hg|exact Hx].
    + destruct Hg as [<-|Hg].
      * right. exists g0. split; [left; reflexivity|exact Hx].
      * destruct (IH Hg Hx) as [->|(g & Hgin & Hxin)]; [left; reflexivity|].
        right. exists g. split; [right; exact Hgin|exact Hxin].
Qed.

Lemma add_to_groups_consistent r e gs :
  (forall g, In g gs -> consistent r g) ->
  forall g', In g' (add_to_groups r e gs) -> consistent r g'.
Proof.
  induction gs as [|g0 gs IH]; cbn; intros Hc g' Hg'.
  - destruct Hg' as [<-|[]]. intros x [<-|[]]. reflexivity.
  - destruct (group_key_eq_dec _ _) as [E|E].
    + destruct Hg' as [<-|Hg']; [|apply Hc; right; exact Hg'].
      intros x [<-|Hx]; [reflexivity|]. cbn in Hx |- *.
      apply in_app_or in Hx. destruct Hx as [Hx|[<-|[]]].
      * apply (Hc g0 (or_introl eq_refl)). right. exact Hx.
      * symmetry. exact E.
    + destruct Hg' as [<-|Hg']; [apply Hc; left; reflexivity|].
      apply IH; [|exact Hg']. intros g Hg. apply Hc. right. exact Hg.
Qed.

Lemma group_fold_complete r l gs :
  (forall e, In e l ->
     exists g, In g (fold_left (fun gs e => add_to_groups r e gs) l gs)
               /\ In e (members g))
  /\ (forall g0 x, In g0 gs -> In x (members g0) ->
        exists g, In g (fold_left (fun gs e => add_to_groups r e gs) l gs)
                  /\ In x (members g)).
Proof.
  revert gs. induction l as [|a l IH]; intros gs; cbn.
  - split; [intros e []|]. intros g0 x Hg Hx. exists g0. auto.
  - destruct (IH (add_to_groups r a gs)) as [IH1 IH2]. split.
    + intros e [<-|He]; [|apply IH1; exact He].
      destruct (add_to_groups_new r a gs) as (g' & Hg' & Ha).
      apply (IH2 g' a Hg' Ha).
    + intros g0 x Hg Hx.
      destruct (add_to_groups_old r a gs g0 x Hg Hx) as (g' & Hg' & Hx').
      apply (IH2 g' x Hg' Hx').
Qed.

Lemma group_fold_sound r l gs g :
  In g (fold_left (fun gs e => add_to_groups r e gs) l gs) ->
  ((forall g0, In g0 gs -> consistent r g0) -> consistent r g)
  /\ (forall x, In x (members g) ->
        In x l \/ exists g0, In g0 gs /\ In x (members g0)).
Proof.
  revert gs. induction l as [|a l IH]; intros gs Hg; cbn in Hg.
  - split; [intros Hc; apply Hc; exact Hg|].
    intros x Hx. right. exists g. auto.
  - destruct (IH _ Hg) as [IH1 IH2]. split.
    + intros Hc. apply IH1. apply add_to_groups_consistent. exact Hc.
    + intros x Hx. destruct (IH2 x Hx) as [Hin|(g0 & Hg0 & Hx0)].
      * left. right. exact Hin.
      * destruct (add_to_groups_origin r a gs g0 x Hg0 Hx0)
          as [->|(g1 & Hg1 & Hx1)].
        -- left. left. reflexivity.
        -- right. exists g1. auto.
Qed.

Lemma group_by_complete r l e :
  In e l -> exists g, In g (group_by r l) /\ In e (members g).
Proof. apply (group_fold_complete r l []). Qed.

Lemma group_by_consistent r l g : In g (group_by r l) -> consistent r g.
Proof.
  intros Hg. apply (group_fold_sound r l [] g Hg). intros g0 [].
Qed.

Lemma group_by_members r l g x :
  In g (group_by r l) -> In x (members g) -> In x l.
Proof.
  intros Hg Hx.
  destruct (proj2 (group_fold_sound r l [] g Hg) x Hx) as [H|(g0 & [] & _)].
  exact H.
Qed.

Lemma consistent_fields r g x :
  consistent r g -> In x (members g) ->
  operandFields x = operandFields (fst g)
  /\ mask r (bitPattern x) = mask r (bitPattern (fst g)).
Proof.
  intros Hc Hx. specialize (Hc x Hx). unfold group_key in Hc.
  injection Hc as _ _ Hm Hf. auto.
Qed.

(** *** Pass 2 keeps every entry represented *)

Lemma merged_from_trans e1 e2 e3 :
  merged_from e1 e2 -> merged_from e2 e3 -> merged_from e1 e3.
Proof.
  intros H12 H23. induction H23 as [|e' m _ IH Habs]; [exact H12|].
  eapply merged_step; eassumption.
Qed.

Lemma length_imap_from {A B} (fn : nat -> A -> B) (l : list A) i :
  List.length (imap_from i fn l) = List.length l.
Proof.
  revert i. induction l as [|a l IH]; intros i; cbn; [reflexivity|].
  rewrite IH. reflexivity.
Qed.

(** A merged entry is an entry of the same instruction as what it absorbed:
    same mnemonic, same number of operand tokens, same pattern length. *)
Lemma absorbed_into_same_instruction m e :
  absorbed_into m e ->
  mnemonic m = mnemonic e
  /\ List.length (operandSyntaxTokens m) = List.length (operandSyntaxTokens e)
  /\ List.length (bitPattern m) = List.length (bitPattern e).
Proof.
  intros (r & g & f & v & Hc & He & _ & _ & ->).
  specialize (Hc e He). unfold group_key in Hc.
  injection Hc as Hm Ht Hmask _.
  unfold generalize, bind_range, imap. cbn [mnemonic operandSyntaxTokens bitPattern].
  rewrite length_imap_from.
  apply (f_equal (@List.length _)) in Hmask. unfold mask, imap in Hmask.
  rewrite !length_imap_from in Hmask. auto.
Qed.

Lemma merged_from_same_instruction e e' :
  merged_from e e' ->
  mnemonic e' = mnemonic e
  /\ List.length (operandSyntaxTokens e') = List.length (operandSyntaxTokens e)
  /\ List.length (bitPattern e') = List.length (bitPattern e).
Proof.
  intros H. induction H as [|e' m _ (IH1 & IH2 & IH3) Habs]; [auto|].
  destruct (absorbed_into_same_instruction m e' Habs) as (H1 & H2 & H3).
  repeat split; congruence.
Qed.

Lemma represented_self groups out e :
  In e out -> represented merged_from groups groups out e.
Proof.
  intros H. exists e. split; [exact H|]. split; [apply merged_itself|auto].
Qed.

Lemma represented_absorbed groups groups' out m e :
  In m out -> absorbed_into m e ->
  (forall p, covers groups e p -> covers groups' m p) ->
  represented merged_from groups groups' out e.
Proof.
  intros Hin Habs Hcov. exists m. split; [exact Hin|].
  split; [|exact Hcov]. eapply merged_step; [apply merged_itself|exact Habs].
Qed.

(** An entry is represented only by an entry of its own instruction: an
    output without an entry of its mnemonic has dropped it. *)
Lemma represented_same_instruction groups groups' out e :
  represented merged_from groups groups' out e ->
  exists e', In e' out
    /\ mnemonic e' = mnemonic e
    /\ List.length (operandSyntaxTokens e')
       = List.length (operandSyntaxTokens e).
Proof.
  intros (e' & He' & Hm & _). exists e'. split; [exact He'|].
  destruct (merged_from_same_instruction e e' Hm) as (H1 & H2 & _). auto.
Qed.

Lemma kept_same_instruction l groups groups' out e :
  represented (kept_for l) groups groups' out e ->
  exists e', In e' out
    /\ mnemonic e' = mnemonic e
    /\ bitPattern e' = bitPattern e
    /\ operandSyntaxTokens e' = operandSyntaxTokens e.
Proof.
  intros (e' & He' & (Hk & _) & _). exists e'. split; [exact He'|].
  unfold key in Hk. injection Hk as H1 H2 H3. auto.
Qed.

Lemma represented_trans groups1 groups2 groups3 l2 l3 e :
  represented merged_from groups1 groups2 l2 e ->
  (forall e2, In e2 l2 -> represented merged_from groups2 groups3 l3 e2) ->
  represented merged_from groups1 groups3 l3 e.
Proof.
  intros (e2 & H2 & Hm2 & Hc2) H. destruct (H e2 H2) as (e3 & H3 & Hm3 & Hc3).
  exists e3. split; [exact H3|]. split.
  - eapply merged_from_trans; eassumption.
  - intros p Hp. apply Hc3, Hc2, Hp.
Qed.

Lemma varying_values_member r g vs e :
  varying_values r g = Some vs ->
  In e (members g) ->
  exists v, value_on r (bitPattern e) = Some v /\ In v vs.
Proof.
  unfold varying_values. intros H He.
  destruct (contiguous_range _); [|discriminate].
  destruct (collect _) as [vs'|] eqn:Hc; [|discriminate].
  destruct (distinct _ vs'); [|discriminate]. injection H as <-.
  apply In_nth_error in He. destruct He as (i & Hi).
  destruct (collect_map_nth _ _ _ i e Hc Hi) as (v & Hv & Hn).
  exists v. split; [exact Hv|]. eapply nth_error_In. exact Hn.
Qed.

Lemma varying_values_length r g vs :
  varying_values r g = Some vs ->
  List.length vs = List.length (members g).
Proof.
  unfold varying_values. intros H.
  destruct (contiguous_range _); [|discriminate].
  destruct (collect _) as [vs'|] eqn:Hc; [|discriminate].
  destruct (distinct _ vs'); [|discriminate]. injection H as <-.
  apply (collect_map_length _ _ _ Hc).
Qed.

Section Passes.

Variable candidateRanges :
  COMBINE_MODE -> list InstructionEntry -> list BitRange.
Variable syntaxSigned : list string -> bool.

Lemma merge_immediates_covers groups r g m e p :
  merge_immediates syntaxSigned r g = Some m ->
  consistent r g ->
  well_formed (fst g) = true ->
  In e (members g) ->
  covers groups e p -> covers groups m p.
Proof.
  unfold merge_immediates. intros Hm Hc Hwf He Hp.
  destruct (varying_values r g) as [vs|] eqn:Hv; [|discriminate].
  injection Hm as <-.
  destruct (varying_values_member r g vs e Hv He) as (v & Hval & _).
  destruct (consistent_fields r g e Hc He) as [Hf Hmask].
  eapply generalize_covers; eauto.
  cbn. apply Nat.eqb_eq. eapply value_on_length. exact Hval.
Qed.

Lemma merge_immediates_absorbs r g m e :
  merge_immediates syntaxSigned r g = Some m ->
  consistent r g ->
  In e (members g) ->
  absorbed_into m e.
Proof.
  unfold merge_immediates. intros Hm Hc He.
  destruct (varying_values r g) as [vs|] eqn:Hv; [|discriminate].
  injection Hm as <-.
  destruct (varying_values_member r g vs e Hv He) as (v & Hval & _).
  exists r, g, (ImmediateField r (syntaxSigned (operandSyntaxTokens (fst g)))), v.
  repeat split; auto.
Qed.

Lemma merge_immediates_well_formed r g m :
  merge_immediates syntaxSigned r g = Some m ->
  well_formed (fst g) = true ->
  well_formed m = true.
Proof.
  unfold merge_immediates. intros Hm Hwf.
  destruct (varying_values r g); [|discriminate].
  injection Hm as <-. apply generalize_well_formed. exact Hwf.
Qed.

Lemma combine_immediates_on_represents groups r l :
  all_well_formed l ->
  all_well_formed (combine_immediates_on syntaxSigned r l)
  /\ forall e, In e l ->
       represented merged_from groups groups
         (combine_immediates_on syntaxSigned r l) e.
Proof.
  intros Hwf. unfold combine_immediates_on. split.
  - intros m Hm. apply in_flat_map in Hm. destruct Hm as (g & Hg & Hm).
    assert (Hfirst : well_formed (fst g) = true).
    { apply Hwf. eapply group_by_members; [exact Hg|left; reflexivity]. }
    destruct (merge_immediates syntaxSigned r g) as [m'|] eqn:E.
    + destruct Hm as [<-|[]].
      eapply merge_immediates_well_formed; eassumption.
    + apply Hwf. eapply group_by_members; eassumption.
  - intros e He.
    destruct (group_by_complete r l e He) as (g & Hg & Hin).
    assert (Hfirst : well_formed (fst g) = true).
    { apply Hwf. eapply group_by_members; [exact Hg|left; reflexivity]. }
    destruct (merge_immediates syntaxSigned r g) as [m|] eqn:E.
    + pose proof (group_by_consistent r l g Hg) as Hc.
      apply (represented_absorbed groups groups _ m e).
      * apply in_flat_map. exists g. split; [exact Hg|].
        rewrite E. left; reflexivity.
      * eapply merge_immediates_absorbs; eassumption.
      * intros p. eapply merge_immediates_covers; eauto.
    + apply represented_self. apply in_flat_map.
      exists g. split; [exact Hg|]. rewrite E. exact Hin.
Qed.

Lemma immediate_fold_represents groups ranges l :
  all_well_formed l ->
  all_well_formed
    (fold_left (fun acc r => combine_immediates_on syntaxSigned r acc)
               ranges l)
  /\ forall e, In e l ->
       represented merged_from groups groups
         (fold_left (fun acc r => combine_immediates_on syntaxSigned r acc)
                    ranges l) e.
Proof.
  revert l. induction ranges as [|r ranges IH]; intros l Hwf; cbn.
  - split; [exact Hwf|]. intros e. apply represented_self.
  - destruct (combine_immediates_on_represents groups r l Hwf) as [Hwf1 H1].
    destruct (IH _ Hwf1) as [Hwf2 H2]. split; [exact Hwf2|].
    intros e He. eapply represented_trans; [apply H1; exact He|exact H2].
Qed.

Lemma ImmediateCombiner_represents groups l :
  all_well_formed l ->
  all_well_formed (ImmediateCombiner candidateRanges syntaxSigned l)
  /\ forall e, In e l ->
       represented merged_from groups groups
         (ImmediateCombiner candidateRanges syntaxSigned l) e.
Proof. apply immediate_fold_represents. Qed.

(** *** Pass 3 keeps every entry represented *)

Lemma In_insert_by_value x y (l : list (nat * string)) :
  In x (insert_by_value y l) <-> x = y \/ In x l.
Proof.
  induction l as [|z l IH]; cbn.
  - intuition auto.
  - destruct (fst y <=? fst z); cbn; [intuition auto|].
    rewrite IH. intuition auto.
Qed.

Lemma In_in_value_order x (l : list (nat * string)) :
  In x (in_value_order l) <-> In x l.
Proof.
  induction l as [|y l IH]; cbn; [tauto|].
  rewrite In_insert_by_value, IH. intuition auto.
Qed.

Lemma In_combine_l {A B} (la : list A) (lb : list B) a :
  In a la -> List.length la <= List.length lb ->
  exists b, In (a, b) (combine la lb).
Proof.
  revert lb. induction la as [|x la IH]; intros lb Ha Hlen; [destruct Ha|].
  destruct lb as [|y lb]; cbn in Hlen; [lia|].
  destruct Ha as [->|Ha].
  - exists y. left; reflexivity.
  - destruct (IH lb Ha) as (b & Hb); [lia|]. exists b. right. exact Hb.
Qed.

Lemma first_some_Some {A B} (fn : A -> option B) (l : list A) b :
  first_some fn l = Some b -> exists a, In a l /\ fn a = Some b.
Proof.
  induction l as [|a l IH]; cbn; [discriminate|].
  destruct (fn a) as [b'|] eqn:E.
  - intros [= ->]. exists a. auto.
  - intros H. destruct (IH H) as (a' & Ha' & Hb). exists a'. auto.
Qed.

Lemma resolve_registers_length cat g ss :
  resolve_registers cat g = Some ss ->
  List.length ss = List.length (members g).
Proof.
  unfold resolve_registers. intros H.
  apply first_some_Some in H. destruct H as (k & _ & H).
  unfold register_symbols in H.
  destruct (collect _) as [ss'|] eqn:Hc; [|discriminate].
  destruct (distinct _ ss'); [|discriminate]. injection H as <-.
  apply (collect_map_length _ _ _ Hc).
Qed.

Lemma merge_registers_covers cat groups r g m ag e p :
  merge_registers cat groups r g = Some (m, ag) ->
  consistent r g ->
  well_formed (fst g) = true ->
  In e (members g) ->
  covers groups e p -> covers (groups ++ [ag]) m p.
Proof.
  unfold merge_registers. intros Hm Hc Hwf He Hp.
  destruct (varying_values r g) as [vs|] eqn:Hv; [|discriminate].
  destruct (resolve_registers cat g) as [ss|] eqn:Hs; [|discriminate].
  injection Hm as <- <-.
  destruct (varying_values_member r g vs e Hv He) as (v & Hval & Hin).
  destruct (consistent_fields r g e Hc He) as [Hf Hmask].
  eapply (generalize_covers groups); eauto using legal_value_app.
  cbn [legal_value]. apply andb_true_intro. split.
  - apply Nat.eqb_eq. eapply value_on_length. exact Hval.
  - rewrite find_group_fresh by reflexivity. cbn [mapping].
    apply existsb_exists.
    destruct (In_combine_l (map bits_to_nat vs) ss (bits_to_nat v))
      as (name & Hname).
    + apply in_map. exact Hin.
    + rewrite length_map.
      rewrite (varying_values_length r g vs Hv).
      rewrite (resolve_registers_length cat g ss Hs). lia.
    + exists (bits_to_nat v, name). split.
      * apply In_in_value_order. exact Hname.
      * apply Nat.eqb_refl.
Qed.

Lemma merge_registers_absorbs cat groups r g m ag e :
  merge_registers cat groups r g = Some (m, ag) ->
  consistent r g ->
  In e (members g) ->
  absorbed_into m e.
Proof.
  unfold merge_registers. intros Hm Hc He.
  destruct (varying_values r g) as [vs|] eqn:Hv; [|discriminate].
  destruct (resolve_registers cat g) as [ss|] eqn:Hs; [|discriminate].
  injection Hm as <- _.
  destruct (varying_values_member r g vs e Hv He) as (v & Hval & _).
  exists r, g, (RegisterField r (fresh_group_id groups)), v.
  repeat split; auto.
Qed.

Lemma merge_registers_well_formed cat groups r g m ag :
  merge_registers cat groups r g = Some (m, ag) ->
  well_formed (fst g) = true ->
  well_formed m = true.
Proof.
  unfold merge_registers. intros Hm Hwf.
  destruct (varying_values r g); [|discriminate].
  destruct (resolve_registers cat g); [|discriminate].
  injection Hm as <- _. apply generalize_well_formed. exact Hwf.
Qed.

(** One group of pass 3: the table of attach groups grows at its end,
    what was put out stays, and the members are represented. *)
Lemma combine_group_registers_step cat r st g :
  consistent r g ->
  (forall e, In e (members g) -> well_formed e = true) ->
  let st' := combine_group_registers cat r st g in
  (exists more, snd st' = snd st ++ more)
  /\ incl (fst st) (fst st')
  /\ (all_well_formed (fst st) -> all_well_formed (fst st'))
  /\ (forall e, In e (members g) ->
        represented merged_from (snd st) (snd st') (fst st') e).
Proof.
  intros Hc Hwf. unfold combine_group_registers.
  destruct (merge_registers cat (snd st) r g) as [[m ag]|] eqn:E;
    cbn [fst snd].
  - repeat split.
    + exists [ag]. reflexivity.
    + apply incl_appl, incl_refl.
    + intros Hall x Hx. apply in_app_or in Hx.
      destruct Hx as [Hx|[<-|[]]]; [apply Hall; exact Hx|].
      eapply merge_registers_well_formed; [exact E|].
      apply Hwf. left; reflexivity.
    + intros e He.
      apply (represented_absorbed (snd st) (snd st ++ [ag]) _ m e).
      * apply in_or_app. right. left; reflexivity.
      * eapply merge_registers_absorbs; eassumption.
      * intros p. eapply merge_registers_covers; eauto.
        apply Hwf. left; reflexivity.
  - repeat split.
    + exists []. rewrite app_nil_r. reflexivity.
    + apply incl_appl, incl_refl.
    + intros Hall x Hx. apply in_app_or in Hx.
      destruct Hx as [Hx|Hx]; [apply Hall|apply Hwf]; exact Hx.
    + intros e He. apply represented_self. apply in_or_app. right.
      exact He.
Qed.

Lemma register_group_fold cat r gs st :
  (forall g, In g gs ->
     consistent r g /\ forall e, In e (members g) -> well_formed e = true) ->
  let st' := fold_left (combine_group_registers cat r) gs st in
  (exists more, snd st' = snd st ++ more)
  /\ incl (fst st) (fst st')
  /\ (all_well_formed (fst st) -> all_well_formed (fst st'))
  /\ (forall g e, In g gs -> In e (members g) ->
        represented merged_from (snd st) (snd st') (fst st') e).
Proof.
  revert st. induction gs as [|g gs IH]; intros st Hgs; cbn.
  - repeat split.
    + exists []. rewrite app_nil_r. reflexivity.
    + apply incl_refl.
    + auto.
    + intros g e [].
  - destruct (Hgs g (or_introl eq_refl)) as [Hc Hwf].
    destruct (combine_group_registers_step cat r st g Hc Hwf)
      as ((more1 & E1) & Hincl1 & Hwf1 & Hrep1).
    destruct (IH (combine_group_registers cat r st g))
      as ((more2 & E2) & Hincl2 & Hwf2 & Hrep2).
    { intros g' Hg'. apply Hgs. right. exact Hg'. }
    repeat split.
    + exists (more1 ++ more2). rewrite E2, E1, app_assoc. reflexivity.
    + eapply incl_tran; eassumption.
    + auto.
    + intros g' e [<-|Hg'] He.
      * destruct (Hrep1 e He) as (e' & He' & Hhow & Hcov).
        exists e'. split; [apply Hincl2; exact He'|]. split; [exact Hhow|].
        intros p Hp. rewrite E2. apply covers_app. apply Hcov. exact Hp.
      * destruct (Hrep2 g' e Hg' He) as (e' & He' & Hhow & Hcov).
        exists e'. split; [exact He'|]. split; [exact Hhow|].
        intros p Hp. apply Hcov. rewrite E1. apply covers_app. exact Hp.
Qed.

Lemma combine_registers_on_represents cat r st :
  all_well_formed (fst st) ->
  let st' := combine_registers_on cat r st in
  (exists more, snd st' = snd st ++ more)
  /\ all_well_formed (fst st')
  /\ (forall e, In e (fst st) ->
        represented merged_from (snd st) (snd st') (fst st') e).
Proof.
  intros Hwf. unfold combine_registers_on.
  destruct (register_group_fold cat r (group_by r (fst st)) ([], snd st))
    as (Hext & _ & Hwf' & Hrep).
  { intros g Hg. split; [eapply group_by_consistent; exact Hg|].
    intros e He. apply Hwf. eapply group_by_members; eassumption. }
  cbn [fst snd] in *. repeat split.
  - exact Hext.
  - apply Hwf'. intros e [].
  - intros e He. destruct (group_by_complete r (fst st) e He) as (g & Hg & Hin).
    apply (Hrep g e Hg Hin).
Qed.

Lemma register_fold_represents cat ranges st :
  all_well_formed (fst st) ->
  let st' := fold_left (fun st r => combine_registers_on cat r st) ranges st in
  (exists more, snd st' = snd st ++ more)
  /\ all_well_formed (fst st')
  /\ (forall e, In e (fst st) ->
        represented merged_from (snd st) (snd st') (fst st') e).
Proof.
  revert st. induction ranges as [|r ranges IH]; intros st Hwf; cbn.
  - repeat split.
    + exists []. rewrite app_nil_r. reflexivity.
    + exact Hwf.
    + intros e. apply represented_self.
  - destruct (combine_registers_on_represents cat r st Hwf)
      as ((more1 & E1) & Hwf1 & Hrep1).
    destruct (IH _ Hwf1) as ((more2 & E2) & Hwf2 & Hrep2).
    repeat split.
    + exists (more1 ++ more2). rewrite E2, E1, app_assoc. reflexivity.
    + exact Hwf2.
    + intros e He.
      eapply represented_trans; [apply Hrep1; exact He|exact Hrep2].
Qed.

Lemma RegisterCombiner_represents cat st :
  all_well_formed (fst st) ->
  let st' := RegisterCombiner candidateRanges cat st in
  all_well_formed (fst st')
  /\ (forall e, In e (fst st) ->
        represented merged_from (snd st) (snd st') (fst st') e).
Proof.
  intros Hwf. unfold RegisterCombiner.
  destruct (register_fold_represents cat
              (candidateRanges COMBINE_REGISTERS (fst st)) st Hwf)
    as (_ & H1 & H2).
  split; assumption.
Qed.

(** *** Pass 1 keeps every entry represented *)

Lemma same_but_ordinal_refl x : same_but_ordinal x x.
Proof. exists (sourceOrdinal x). destruct x; reflexivity. Qed.

Lemma same_but_ordinal_trans x y z :
  same_but_ordinal x y -> same_but_ordinal y z -> same_but_ordinal x z.
Proof. intros (n & ->) (k & ->). exists n. reflexivity. Qed.

Lemma absorb_into_spec e out :
  (exists e', In e' (absorb_into e out) /\ key e' = key e
              /\ sourceOrdinal e' <= sourceOrdinal e)
  /\ (forall x, In x out ->
        exists x', In x' (absorb_into e out) /\ key x' = key x
                   /\ sourceOrdinal x' <= sourceOrdinal x)
  /\ (forall x', In x' (absorb_into e out) ->
        same_but_ordinal x' e
        \/ exists x, In x out /\ same_but_ordinal x' x).
Proof.
  induction out as [|k out (IH1 & IH2 & IH3)]; cbn [absorb_into].
  - split; [|split].
    + exists e. split; [left; reflexivity|]. split; [reflexivity|].
      apply Nat.le_refl.
    + intros x [].
    + intros x' [<-|[]]. left. apply same_but_ordinal_refl.
  - destruct (key_eq_dec (key k) (key e)) as [E|E].
    + split; [|split].
      * exists (absorb k e). split; [left; reflexivity|].
        split; [exact E|]. apply Nat.le_min_r.
      * intros x [<-|Hx].
        -- exists (absorb k e). split; [left; reflexivity|].
           split; [reflexivity|]. apply Nat.le_min_l.
        -- exists x. split; [right; exact Hx|].
           split; [reflexivity|apply Nat.le_refl].
      * intros x' [<-|Hx']; right.
        -- exists k. split; [left; reflexivity|].
           exists (Nat.min (sourceOrdinal k) (sourceOrdinal e)).
           reflexivity.
        -- exists x'. split; [right; exact Hx'|].
           apply same_but_ordinal_refl.
    + split; [|split].
      * destruct IH1 as (e' & He' & Hk & Ho). exists e'.
        split; [right; exact He'|]. split; assumption.
      * intros x [<-|Hx].
        -- exists k. split; [left; reflexivity|].
           split; [reflexivity|apply Nat.le_refl].
        -- destruct (IH2 x Hx) as (x' & Hx' & Hk & Ho). exists x'.
           split; [right; exact Hx'|]. split; assumption.
      * intros x' [<-|Hx'].
        -- right. exists k. split; [left; reflexivity|].
           apply same_but_ordinal_refl.
        -- destruct (IH3 x' Hx') as [H|(x & Hx & H)]; [left; exact H|].
           right. exists x. split; [right; exact Hx|exact H].
Qed.

Lemma duplicate_fold l acc :
  let out := fold_left (fun out e => absorb_into e out) l acc in
  (forall e, In e l ->
     exists e', In e' out /\ key e' = key e
                /\ sourceOrdinal e' <= sourceOrdinal e)
  /\ (forall x, In x acc ->
        exists x', In x' out /\ key x' = key x
                   /\ sourceOrdinal x' <= sourceOrdinal x)
  /\ (forall x', In x' out ->
        exists x, (In x l \/ In x acc) /\ same_but_ordinal x' x).
Proof.
  revert acc. induction l as [|a l IH]; intros acc; cbn.
  - split; [|split].
    + intros e [].
    + intros x Hx. exists x. split; [exact Hx|].
      split; [reflexivity|apply Nat.le_refl].
    + intros x' Hx'. exists x'. split; [right; exact Hx'|].
      apply same_but_ordinal_refl.
  - destruct (IH (absorb_into a acc)) as (IH1 & IH2 & IH3).
    destruct (absorb_into_spec a acc) as (S1 & S2 & S3).
    split; [|split].
    + intros e [<-|He]; [|apply IH1; exact He].
      destruct S1 as (e' & He' & Hk & Ho).
      destruct (IH2 e' He') as (e'' & He'' & Hk'' & Ho'').
      exists e''. split; [exact He''|]. split; [congruence|].
      eapply Nat.le_trans; eassumption.
    + intros x Hx. destruct (S2 x Hx) as (x' & Hx' & Hk & Ho).
      destruct (IH2 x' Hx') as (x'' & Hx'' & Hk'' & Ho'').
      exists x''. split; [exact Hx''|]. split; [congruence|].
      eapply Nat.le_trans; eassumption.
    + intros x' Hx'. destruct (IH3 x' Hx') as (x & [Hx|Hx] & Hs).
      * exists x. auto.
      * destruct (S3 x Hx) as [Hs'|(y & Hy & Hs')].
        -- exists a. split; [left; left; reflexivity|].
           eapply same_but_ordinal_trans; eassumption.
        -- exists y. split; [right; exact Hy|].
           eapply same_but_ordinal_trans; eassumption.
Qed.

(** *** Raw entries *)

Lemma raw_substitute e vals :
  raw e = true -> substitute e vals = bitPattern e.
Proof.
  unfold raw. intros H. apply andb_prop in H. destruct H as [H _].
  rewrite forallb_forall in H.
  unfold substitute. apply nth_error_ext. intros j.
  rewrite nth_error_imap.
  destruct (nth_error (bitPattern e) j) as [s|] eqn:E; [|reflexivity].
  cbn. apply nth_error_In in E. specialize (H s E).
  destruct s; [reflexivity|discriminate].
Qed.

Lemma raw_covers groups e : raw e = true -> covers groups e (bitPattern e).
Proof.
  intros H. exists (map (fun _ => []) (operandFields e)). split.
  - unfold raw in H. apply andb_prop in H. destruct H as [_ H].
    rewrite forallb_forall in H.
    induction (operandFields e) as [|fld fields IH]; cbn; constructor.
    + specialize (H fld (or_introl eq_refl)). destruct fld; auto;
        discriminate.
    + apply IH. intros x Hx. apply H. right. exact Hx.
  - apply raw_substitute. exact H.
Qed.

Lemma raw_covers_only groups e p :
  raw e = true -> covers groups e p -> p = bitPattern e.
Proof.
  intros H (vals & _ & Hs). rewrite <- Hs. apply raw_substitute. exact H.
Qed.

Lemma raw_well_formed e : raw e = true -> well_formed e = true.
Proof.
  unfold raw, well_formed. intros H. apply andb_prop in H.
  destruct H as [H _]. rewrite forallb_forall in H |- *.
  intros s Hs. specialize (H s Hs). destruct s; [reflexivity|discriminate].
Qed.

Lemma raw_same_but_ordinal x' x :
  same_but_ordinal x' x -> raw x = true -> raw x' = true.
Proof. intros (n & ->). auto. Qed.

Lemma DuplicateCombiner_raw l :
  (forall e, In e l -> raw e = true) ->
  forall e', In e' (DuplicateCombiner l) -> raw e' = true.
Proof.
  intros Hraw e' He'.
  destruct (duplicate_fold l []) as (_ & _ & H3).
  destruct (H3 e' He') as (x & [Hx|[]] & Hs).
  eapply raw_same_but_ordinal; eauto.
Qed.

Lemma DuplicateCombiner_represents groups l :
  (forall e, In e l -> raw e = true) ->
  forall e, In e l ->
    represented (kept_for l) groups groups (DuplicateCombiner l) e.
Proof.
  intros Hraw e He.
  destruct (duplicate_fold l []) as (H1 & _ & H3).
  destruct (H1 e He) as (e' & He' & Hk & Ho).
  exists e'. split; [exact He'|]. split.
  - split; [exact Hk|]. split; [exact Ho|].
    destruct (H3 e' He') as (x & [Hx|[]] & Hs). exists x. auto.
  - intros p Hp.
    rewrite (raw_covers_only groups e p (Hraw e He) Hp).
    assert (E : bitPattern e = bitPattern e').
    { unfold key in Hk. injection Hk as _ Hb _. auto. }
    rewrite E. apply raw_covers. eapply DuplicateCombiner_raw; eauto.
Qed.

(** *** The three passes together *)

(** C1, as the model has it.  No combine pass drops an entry: every entry
    a pass receives is represented in what the pass puts out, in pass 1 by
    the kept entry of its key (same mnemonic, BitPattern and operand tokens,
    a source ordinal not higher), in passes 2 and 3 by itself or by the
    merged entry that absorbed it; and the entry that represents it
    reproduces every pattern it did.  Hence for every raw input entry the
    final combined set has at least one entry, made by the merges from the
    kept entry of its key and so of its mnemonic, operand count and width,
    whose OperandFields, with legal values substituted, reproduce the raw
    entry's exact BitPattern.  It need not be the only one: two raw entries
    of different mnemonics, also of one BitPattern, have two different
    entries in the final set, each of the mnemonic of its own. *)
Theorem every_raw_entry_stays_covered
    (cat : RegisterCatalog) (raws : list InstructionEntry) :
  (forall x, In x raws -> raw x = true) ->
  let m0 := initial_model cat raws in
  let m1 := combineInstructions candidateRanges syntaxSigned m0
              COMBINE_DUPLICATES in
  let m2 := combineInstructions candidateRanges syntaxSigned m1
              COMBINE_IMMEDIATES in
  let m3 := combineInstructions candidateRanges syntaxSigned m2
              COMBINE_REGISTERS in
  m3 = combine_passes candidateRanges syntaxSigned m0
  /\ (forall e, In e (entries m0) ->
        represented (kept_for (entries m0))
          (attachGroups m0) (attachGroups m1) (entries m1) e)
  /\ (forall e, In e (entries m1) ->
        represented merged_from
          (attachGroups m1) (attachGroups m2) (entries m2) e)
  /\ (forall e, In e (entries m2) ->
        represented merged_from
          (attachGroups m2) (attachGroups m3) (entries m3) e)
  /\ (forall x, In x raws ->
        exists e1 e,
          In e1 (entries m1) /\ kept_for raws x e1
          /\ merged_from e1 e /\ In e (entries m3)
          /\ mnemonic e = mnemonic x
          /\ List.length (operandSyntaxTokens e)
             = List.length (operandSyntaxTokens x)
          /\ List.length (bitPattern e) = List.length (bitPattern x)
          /\ covers (attachGroups m3) e (bitPattern x))
  /\ (forall x y, In x raws -> In y raws -> mnemonic x <> mnemonic y ->
        exists ex ey,
          In ex (entries m3) /\ In ey (entries m3) /\ ex <> ey
          /\ mnemonic ex = mnemonic x /\ mnemonic ey = mnemonic y
          /\ covers (attachGroups m3) ex (bitPattern x)
          /\ covers (attachGroups m3) ey (bitPattern y)).
Proof.
  intros Hraw m0 m1 m2 m3.
  assert (H01 : forall e, In e (entries m0) ->
            represented (kept_for (entries m0))
              (attachGroups m0) (attachGroups m1) (entries m1) e).
  { intros e He. apply DuplicateCombiner_represents; assumption. }
  assert (Hwf1 : all_well_formed (entries m1)).
  { intros e He. apply raw_well_formed.
    eapply DuplicateCombiner_raw; eassumption. }
  destruct (ImmediateCombiner_represents (attachGroups m1) (entries m1) Hwf1)
    as [Hwf2 H12].
  destruct (RegisterCombiner_represents (catalog m2)
              (entries m2, attachGroups m2) Hwf2) as [_ H23].
  split; [reflexivity|]. split; [exact H01|]. split; [exact H12|].
  split; [exact H23|].
  assert (Hfinal : forall x, In x raws ->
            exists e1 e,
              In e1 (entries m1) /\ kept_for raws x e1
              /\ merged_from e1 e /\ In e (entries m3)
              /\ mnemonic e = mnemonic x
              /\ List.length (operandSyntaxTokens e)
                 = List.length (operandSyntaxTokens x)
              /\ List.length (bitPattern e) = List.length (bitPattern x)
              /\ covers (attachGroups m3) e (bitPattern x));
    [|split; [exact Hfinal|];
      intros x y Hx Hy Hxy;
      destruct (Hfinal x Hx) as (_ & ex & _ & _ & _ & Hex & Hmx & _ & _ & Hcx);
      destruct (Hfinal y Hy) as (_ & ey & _ & _ & _ & Hey & Hmy & _ & _ & Hcy);
      exists ex, ey; repeat (split; [assumption|]);
      split; [intros ->; congruence|]; auto].
  intros x Hr.
  destruct (H01 x Hr) as (e1 & He1 & Hkept & Hcov1).
  assert (H13 : represented merged_from (attachGroups m1) (attachGroups m3)
                  (entries m3) e1).
  { eapply represented_trans; [apply H12; exact He1|exact H23]. }
  destruct H13 as (e & He & Hmerged & Hcov3).
  destruct (merged_from_same_instruction e1 e Hmerged) as (Hm & Ht & Hl).
  destruct Hkept as (Hkey & Hord & Horigin).
  unfold key in Hkey. injection Hkey as Hkm Hkp Hkt.
  exists e1, e. split; [exact He1|].
  split; [split; [unfold key; congruence|split; assumption]|].
  split; [exact Hmerged|]. split; [exact He|].
  split; [congruence|]. split; [congruence|]. split; [congruence|].
  apply Hcov3, Hcov1. apply raw_covers. apply Hraw. exact Hr.
Qed.

End Passes.

End CoverFacts.

(** * The theorems on concrete runs *)

Section Runs.

Import Driver.
Local Open Scope Z_scope.

(** C2 as stated fails: with [--help -e middle] the endianness is invalid
    and the input file is missing, and the exit code is [0], not [-1]. *)
Lemma usage_screen_with_invalid_endianness_returns_zero :
  endian_invalid (default_value (opt_endian help_with_bad_endian) "big") = true
  /\ input_file_missing help_with_bad_endian = true
  /\ exit_code (main (routines := quiet_routines 0) 4
                     (Parsed help_with_bad_endian) empty_data tt) = 0
  /\ exit_code (main (routines := quiet_routines 0) 4
                     (Parsed help_with_bad_endian) empty_data tt) <> -1.
Proof. repeat split; try reflexivity. discriminate. Qed.

(** A run in which [initRegisters] fails: exit code [-1]. *)
Lemma exit_code_of_every_run_witness :
  (forall o, Parsed only_input = Parsed o ->
     zero_or_minus_one
       (init_status (routines := failing_routines (-1) 0)
                    (configured o empty_data tt)))
  /\ (forall o, Parsed only_input = Parsed o ->
        zero_or_minus_one
          (parse_status (routines := failing_routines (-1) 0)
                        (configured o empty_data tt)))
  /\ exit_code (main (routines := failing_routines (-1) 0) 3
                     (Parsed only_input) empty_data tt) = -1.
Proof.
  assert (H1 : forall o, Parsed only_input = Parsed o ->
            zero_or_minus_one
              (init_status (routines := failing_routines (-1) 0)
                           (configured o empty_data tt)))
    by (intros o _; right; reflexivity).
  assert (H2 : forall o, Parsed only_input = Parsed o ->
            zero_or_minus_one
              (parse_status (routines := failing_routines (-1) 0)
                            (configured o empty_data tt)))
    by (intros o _; left; reflexivity).
  split; [exact H1|]. split; [exact H2|].
  destruct (exit_code_of_every_run (routines := failing_routines (-1) 0)
              3 (Parsed only_input) empty_data tt H1 H2)
    as (_ & _ & _ & _ & Hinit & _).
  apply (Hinit only_input eq_refl); [reflexivity|discriminate].
Defined.

(** C3 as stated fails: the runs that end in the command-line block (no
    argument at all, missing input file, invalid endianness) return
    without calling [clearParserData]. *)
Lemma teardown_skipped_in_the_command_line_block :
  teardowns (events (main (routines := quiet_routines 0) 1
                          (Parsed no_options) empty_data tt)) = 0%nat
  /\ teardowns (events (main (routines := quiet_routines 0) 3
                             (Parsed endian_only) empty_data tt)) = 0%nat
  /\ teardowns (events (main (routines := quiet_routines 0) 5
                             (Parsed bad_endian) empty_data tt)) = 0%nat.
Proof. repeat split; reflexivity. Qed.

Lemma teardown_once_past_the_command_line_witness :
  reaches_pipeline 3 (Parsed only_input) = true
  /\ teardowns (events (main (routines := quiet_routines 0) 3
                             (Parsed only_input) empty_data tt)) = 1%nat.
Proof.
  split; [reflexivity|].
  apply (teardown_once_past_the_command_line (routines := quiet_routines 0)
           3 (Parsed only_input) empty_data tt).
Defined.

Lemma print_registers_only_ends_before_combining_witness :
  parsed_ok (routines := quiet_routines 0) 4 registers_only empty_data tt
  /\ opt_print_registers_only registers_only = true
  /\ exit_code (main (routines := quiet_routines 0) 4
                     (Parsed registers_only) empty_data tt) = 0
  /\ stages (events (main (routines := quiet_routines 0) 4
                          (Parsed registers_only) empty_data tt)) = [].
Proof.
  assert (H : parsed_ok (routines := quiet_routines 0) 4 registers_only
                empty_data tt) by (repeat split; reflexivity).
  split; [exact H|]. split; [reflexivity|].
  destruct (print_registers_only_ends_before_combining
              (routines := quiet_routines 0) 4 registers_only empty_data tt
              H eq_refl) as (Hc & _ & Hs & _).
  split; [exact Hc|exact Hs].
Defined.

Lemma skip_instruction_combining_bypasses_the_passes_witness :
  parsed_ok (routines := quiet_routines 0) 4 skip_combining empty_data tt
  /\ opt_print_registers_only skip_combining = false
  /\ opt_skip_instruction_combining skip_combining = true
  /\ combines (events (main (routines := quiet_routines 0) 4
                            (Parsed skip_combining) empty_data tt)) = []
  /\ stages (events (main (routines := quiet_routines 0) 4
                          (Parsed skip_combining) empty_data tt))
     = [Call_computeAttachVariables; Call_computeTokenInstructions].
Proof.
  assert (H : parsed_ok (routines := quiet_routines 0) 4 skip_combining
                empty_data tt) by (repeat split; reflexivity).
  split; [exact H|]. split; [reflexivity|]. split; [reflexivity|].
  destruct (skip_instruction_combining_bypasses_the_passes
              (routines := quiet_routines 0) 4 skip_combining empty_data tt
              H eq_refl eq_refl) as (Hc & Hs & _).
  split; [exact Hc|exact Hs].
Defined.

Lemma stages_run_once_in_fixed_order_witness :
  opt_skip_instruction_combining only_input = false
  /\ parsed_ok (routines := quiet_routines 0) 3 only_input empty_data tt
  /\ opt_print_registers_only only_input = false
  /\ stages (events (main (routines := quiet_routines 0) 3
                          (Parsed only_input) empty_data tt))
     = five_stages.
Proof.
  assert (H : parsed_ok (routines := quiet_routines 0) 3 only_input
                empty_data tt) by (repeat split; reflexivity).
  split; [reflexivity|]. split; [exact H|]. split; [reflexivity|].
  destruct (stages_run_once_in_fixed_order
              (routines := quiet_routines 0) 3 only_input empty_data tt
              eq_refl) as (_ & Hfull).
  apply (Hfull H eq_refl).
Defined.

(** C8 fails on the code: [createProcessorModule] reports [-1] on every
    call, and the run still announces the module directory and returns
    [0]. *)
Theorem output_failure_is_reported_as_success :
  (forall pd w,
     fst (fst (createProcessorModule (Routines := quiet_routines (-1)) pd w))
     = -1)
  /\ exit_code (main (routines := quiet_routines (-1)) 3
                     (Parsed only_input) empty_data tt) = 0
  /\ In (Say "[*] Created Processor Module Directory")
        (events (main (routines := quiet_routines (-1)) 3
                      (Parsed only_input) empty_data tt)).
Proof.
  split; [reflexivity|].
  apply (output_status_dropped (routines := quiet_routines (-1))
           3 only_input empty_data tt); repeat split; reflexivity.
Qed.

Lemma defaults_of_absent_options_witness :
  opt_processor_name only_input = None
  /\ opt_endian only_input = None
  /\ opt_bitness only_input = None
  /\ processorName (parsedData (configured only_input empty_data tt))
     = "MyProc"
  /\ endian (parsedData (configured only_input empty_data tt)) = "big"
  /\ bitness (parsedData (configured only_input empty_data tt)) = 32.
Proof.
  destruct (defaults_of_absent_options only_input empty_data tt)
    as (Hn & _ & He & _ & Hb & _).
  split; [reflexivity|]. split; [reflexivity|]. split; [reflexivity|].
  split; [apply Hn; reflexivity|]. split; [apply He|apply Hb]; reflexivity.
Defined.

Lemma help_takes_precedence_witness :
  (opt_help help_with_bad_endian = true \/ 4 = 1)
  /\ endian_invalid
       (default_value (opt_endian help_with_bad_endian) "big") = true
  /\ input_file_missing help_with_bad_endian = true
  /\ exit_code (main (routines := quiet_routines 0) 4
                     (Parsed help_with_bad_endian) empty_data tt) = 0.
Proof.
  split; [left; reflexivity|]. split; [reflexivity|]. split; [reflexivity|].
  apply (help_takes_precedence (routines := quiet_routines 0)
           4 help_with_bad_endian empty_data tt).
  left; reflexivity.
Defined.

(** *** The further properties on concrete runs *)

Lemma output_generated_iff_witness :
  In Call_createProcessorModule
     (events (main (routines := quiet_routines 0) 3 (Parsed only_input)
                   empty_data tt))
  /\ ~ In Call_createProcessorModule
         (events (main (routines := failing_routines 0 (-1)) 3
                       (Parsed only_input) empty_data tt)).
Proof.
  split.
  - apply (output_generated_iff (routines := quiet_routines 0)
             3 (Parsed only_input) empty_data tt).
    exists only_input. repeat split; reflexivity.
  - apply (proj2 (output_generated_iff (routines := failing_routines 0 (-1))
                    3 (Parsed only_input) empty_data tt)).
    vm_compute. discriminate.
Defined.

Lemma exit_code_zero_iff_witness :
  parsed_ok (routines := quiet_routines 0) 3 only_input empty_data tt
  /\ exit_code (main (routines := quiet_routines 0) 3 (Parsed only_input)
                     empty_data tt) = 0.
Proof.
  assert (H : parsed_ok (routines := quiet_routines 0) 3 only_input
                empty_data tt) by (repeat split; reflexivity).
  split; [exact H|].
  apply (exit_code_zero_iff (routines := quiet_routines 0)
           3 (Parsed only_input) empty_data tt).
  exists only_input. split; [reflexivity|right; exact H].
Defined.

Lemma overwritten_members_never_observed_witness :
  inputFilename empty_data = inputFilename stale_data
  /\ allInstructions empty_data = allInstructions stale_data
  /\ engine empty_data = engine stale_data
  /\ main (routines := quiet_routines 0) 3 (Parsed only_input) empty_data tt
     = main (routines := quiet_routines 0) 3 (Parsed only_input) stale_data tt.
Proof.
  split; [reflexivity|]. split; [reflexivity|]. split; [reflexivity|].
  apply (overwritten_members_never_observed (routines := quiet_routines 0)
           3 (Parsed only_input) empty_data stale_data tt
           eq_refl eq_refl eq_refl).
  reflexivity.
Defined.

Lemma usage_only_on_request_witness :
  (opt_help help_with_bad_endian = true \/ 4 = 1)
  /\ In SayUsage
        (events (main (routines := quiet_routines 0) 4
                      (Parsed help_with_bad_endian) empty_data tt))
  /\ ~ In SayUsage
         (events (main (routines := quiet_routines 0) 3
                       (Parsed endian_only) empty_data tt)).
Proof.
  split; [left; reflexivity|]. split.
  - apply (usage_only_on_request (routines := quiet_routines 0)
             4 (Parsed help_with_bad_endian) empty_data tt).
    exists help_with_bad_endian. split; [reflexivity|left; reflexivity].
  - intros H.
    apply (usage_only_on_request (routines := quiet_routines 0)
             3 (Parsed endian_only) empty_data tt) in H.
    destruct H as (o & E & [H|H]); [|discriminate H].
    injection E as <-. discriminate H.
Defined.

Lemma instruction_count_reported_iff_witness :
  parsed_ok (routines := quiet_routines 0) 3 only_input empty_data tt
  /\ In (SayParsed 0)
        (events (main (routines := quiet_routines 0) 3 (Parsed only_input)
                      empty_data tt)).
Proof.
  assert (H : parsed_ok (routines := quiet_routines 0) 3 only_input
                empty_data tt) by (repeat split; reflexivity).
  split; [exact H|].
  apply (instruction_count_reported_iff (routines := quiet_routines 0)
           3 (Parsed only_input) empty_data tt 0%nat).
  exists only_input. split; [reflexivity|]. split; [exact H|reflexivity].
Defined.

Lemma teardown_receives_last_store_witness :
  reaches_pipeline 3 (Parsed only_input) = true
  /\ init_status (routines := failing_routines (-1) 0)
                 (configured only_input empty_data tt) <> 0
  /\ (parsedData (final (main (routines := failing_routines (-1) 0) 3
                              (Parsed only_input) empty_data tt)),
      world (final (main (routines := failing_routines (-1) 0) 3
                         (Parsed only_input) empty_data tt)))
     = teardown_stage (routines := failing_routines (-1) 0)
         (parsedData (configured only_input empty_data tt), tt).
Proof.
  split; [reflexivity|]. split; [discriminate|].
  destruct (teardown_receives_last_store (routines := failing_routines (-1) 0)
              3 only_input empty_data tt eq_refl) as (Hinit & _).
  apply Hinit. discriminate.
Defined.

Lemma rejected_run_leaves_world_witness :
  reaches_pipeline 3 (Parsed endian_only) = false
  /\ world (final (main (routines := quiet_routines 0) 3
                        (Parsed endian_only) empty_data tt)) = tt.
Proof.
  split; [reflexivity|].
  apply (rejected_run_leaves_world (routines := quiet_routines 0)
           3 (Parsed endian_only) empty_data tt).
  reflexivity.
Defined.


(** [gpmg -f insns.txt] and [gpmg -f insns.txt --print-registers-only]
    end with the same exit code. *)
Lemma debugging_switches_keep_exit_code_witness :
  3 <> 1 /\ 4 <> 1
  /\ exit_code (main (routines := quiet_routines 0) 4
                     (Parsed (with_switches only_input true false))
                     empty_data tt)
     = exit_code (main (routines := quiet_routines 0) 3
                       (Parsed only_input) empty_data tt).
Proof.
  split; [discriminate|]. split; [discriminate|].
  apply (debugging_switches_keep_exit_code (routines := quiet_routines 0)
           3 4 only_input true false empty_data tt); discriminate.
Defined.

(** The command line without arguments is the exception: [gpmg] returns 0
    and [gpmg --print-registers-only] returns -1. *)
Example switch_after_no_arguments_changes_exit_code :
  exit_code (main (routines := quiet_routines 0) 1
                  (Parsed no_options) empty_data tt) = 0
  /\ exit_code (main (routines := quiet_routines 0) 2
                     (Parsed (with_switches no_options true false))
                     empty_data tt) = -1.
Proof. split; vm_compute; reflexivity. Qed.

End Runs.

(** * The passes on concrete instruction lists *)

Section PassExamples.

Import Combiner.
Local Open Scope nat_scope.

Lemma conflict_stays_unmerged :
  entries (combine_passes whole_pattern unsigned_syntax
             (initial_model sample_catalog conflict_raws))
  = conflict_raws.
Proof. reflexivity. Qed.

(** C1 as stated fails: ADD and SUB share the BitPattern [01]; both stay
    in the final set, and both reproduce the pattern of the raw ADD entry,
    so there is not exactly one such entry. *)
Lemma two_final_entries_reproduce_one_raw_pattern :
  ~ (forall x, In x conflict_raws ->
       exists! e,
         In e (entries (combine_passes whole_pattern unsigned_syntax
                          (initial_model sample_catalog conflict_raws)))
         /\ covers (attachGroups
                      (combine_passes whole_pattern unsigned_syntax
                         (initial_model sample_catalog conflict_raws)))
                   e (bitPattern x)).
Proof.
  intros H.
  destruct (H (raw_entry "ADD" [] "01" 0) (or_introl eq_refl))
    as (e & _ & Hunique).
  rewrite conflict_stays_unmerged in Hunique.
  assert (Hadd : e = raw_entry "ADD" [] "01" 0).
  { apply Hunique. split; [left; reflexivity|].
    exists []. split; [constructor|reflexivity]. }
  assert (Hsub : e = raw_entry "SUB" [] "01" 1).
  { apply Hunique. split; [right; left; reflexivity|].
    exists []. split; [constructor|reflexivity]. }
  rewrite Hsub in Hadd. discriminate Hadd.
Qed.

(** An output that dropped SUB and kept ADD, of the same BitPattern, does
    not represent SUB, in none of the passes. *)
Example dropped_entry_is_not_represented :
  let add := raw_entry "ADD" [] "01" 0 in
  let sub := raw_entry "SUB" [] "01" 1 in
  (forall p, covers [] sub p -> covers [] add p)
  /\ ~ represented (kept_for conflict_raws) [] [] [add] sub
  /\ ~ represented merged_from [] [] [add] sub.
Proof.
  intros add sub. split; [|split].
  - intros p (vs & Hlegal & Hsub). exists vs. split; [exact Hlegal|exact Hsub].
  - intros H. apply kept_same_instruction in H.
    destruct H as (e' & [<-|[]] & Hm & _). discriminate Hm.
  - intros H. apply represented_same_instruction in H.
    destruct H as (e' & [<-|[]] & Hm & _). discriminate Hm.
Qed.

Lemma every_raw_entry_stays_covered_witness :
  (forall x, In x movi_raws -> raw x = true)
  /\ (forall x, In x movi_raws ->
        exists e,
          In e (entries (combine_passes (try_ranges [mkBitRange 4 2] [])
                           unsigned_syntax
                           (initial_model sample_catalog movi_raws)))
          /\ mnemonic e = mnemonic x
          /\ List.length (operandSyntaxTokens e)
             = List.length (operandSyntaxTokens x)
          /\ covers (attachGroups
                       (combine_passes (try_ranges [mkBitRange 4 2] [])
                          unsigned_syntax
                          (initial_model sample_catalog movi_raws)))
                    e (bitPattern x)).
Proof.
  assert (H : forall x, In x movi_raws -> raw x = true).
  { intros x Hx. cbn in Hx.
    repeat (destruct Hx as [<-|Hx]; [reflexivity|]). destruct Hx. }
  split; [exact H|].
  destruct (every_raw_entry_stays_covered (try_ranges [mkBitRange 4 2] [])
              unsigned_syntax sample_catalog movi_raws H)
    as (_ & _ & _ & _ & Hcov & _).
  intros x Hx.
  destruct (Hcov x Hx) as (e1 & e & _ & _ & _ & He & Hm & Ht & _ & Hc).
  exists e. split; [exact He|]. split; [exact Hm|]. split; [exact Ht|exact Hc].
Defined.

(** The testable properties of the spec, on the model. *)

(** Partial-domain immediates: three of the four values of a 2-bit field
    merge into one entry with an ImmediateField of width 2. *)
Example partial_domain_immediates_merge :
  entries (combine_passes (try_ranges [mkBitRange 4 2] []) unsigned_syntax
             (initial_model sample_catalog movi_raws))
  = [mkEntry "MOVI" ["0"]
       [Literal false; Literal false; Literal false; Literal true;
        FieldRef 0; FieldRef 0]
       0 [ImmediateField (mkBitRange 4 2) false]].
Proof. reflexivity. Qed.

(** Example A: the two ADD entries merge into one entry with a
    RegisterField bound to the attach group {(00001,R1),(00010,R2)}. *)
Example register_merge :
  let final := combine_passes (try_ranges [] [mkBitRange 11 5])
                 unsigned_syntax (initial_model sample_catalog add_raws) in
  map operandFields (entries final) = [[RegisterField (mkBitRange 11 5) 1]]
  /\ attachGroups final = [mkAttachGroup 1 [(1, "R1"); (2, "R2")]].
Proof. split; reflexivity. Qed.

End PassExamples.
